(** * geo-util: the geohash codec, the neighbour resolver and the radius search

    A shallow embedding of [src/index.ts] (classes [GeoCoordinate] and
    [GeoHash]) and the properties of its specification.

    Conventions of the embedding.
    - A JavaScript number that is neither NaN nor infinite is the rational
      it denotes ([Q]).  The only arithmetic the codec performs is
      [(a + b) / 2]; it is the parameter [midpoint] of the codec, so that a
      theorem stated for every [midpoint] holds for IEEE doubles with their
      rounding as well as for exact arithmetic ([exact_midpoint]).
    - A JavaScript string is a [string], its characters being bytes;
      [undefined] is [None].
    - A recursion or a [while] loop whose termination the source does not
      make evident takes a [fuel]: [None] means that the fuel ran out. *)

From Stdlib Require Import ZArith QArith Qreduction Qabs Qround Bool List String Ascii Lia Lqa.
Import ListNotations.
Local Open Scope string_scope.
Local Open Scope Z_scope.

(** ** The string primitives of JavaScript that the source uses *)

Module Js.

(** [s.indexOf(sub)]: the first position at which [sub] occurs, or -1.
    The empty string occurs at position 0 of every string. *)
Fixpoint indexOf_from (s sub : string) (i : Z) : Z :=
  if prefix sub s then i
  else match s with
       | EmptyString => -1
       | String _ s' => indexOf_from s' sub (i + 1)
       end.

Definition indexOf (s sub : string) : Z := indexOf_from s sub 0.

(** [s[i]]: the one-character string at index [i], [undefined] out of
    range (in particular at -1). *)
Definition index (s : string) (i : Z) : option string :=
  if i <? 0 then None
  else match get (Z.to_nat i) s with
       | Some c => Some (String c EmptyString)
       | None => None
       end.

(** [s + x] where [x] is a string or [undefined]. *)
Definition add (s : string) (x : option string) : string :=
  match x with
  | Some t => s ++ t
  | None => s ++ "undefined"
  end.

Definition len (s : string) : Z := Z.of_nat (String.length s).

(** [s.slice(start)], a negative [start] counting from the end. *)
Definition slice (s : string) (start : Z) : string :=
  let from := if start <? 0 then Z.max (len s + start) 0
              else Z.min start (len s) in
  substring (Z.to_nat from) (Z.to_nat (len s - from)) s.

(** [s.substr(0, length)]; a negative [length] gives the empty string. *)
Definition substr0 (s : string) (length : Z) : string :=
  if length <=? 0 then EmptyString
  else substring 0 (Z.to_nat (Z.min length (len s))) s.

End Js.

(** ** GeoCoordinate *)

Record GeoCoordinate : Type := mkGeoCoordinate { lat : Q; long : Q }.

(** [a > b] on numbers. *)
Definition Qgtb (a b : Q) : bool := negb (Qle_bool a b).

(** ** The constants of GeoHash *)

Definition BITS : list Z := [16; 8; 4; 2; 1].
Definition BASE32 : string := "0123456789bcdefghjkmnpqrstuvwxyz".

(** The exact [(a + b) / 2], in lowest terms. *)
Definition exact_midpoint (a b : Q) : Q := Qred ((a + b) / 2).

Definition interval : Type := (Q * Q)%type.

Section Codec.

(** [(a + b) / 2] as the machine computes it. *)
Variable midpoint : Q -> Q -> Q.

Definition refine_interval (iv : interval) (cd mask : Z) : interval :=
  if negb (Z.land cd mask =? 0)
  then (midpoint (fst iv) (snd iv), snd iv)
  else (fst iv, midpoint (fst iv) (snd iv)).

(** The variables of the loops of [decodeGeohash]: [is_even], [lat] and
    [lon].  ([lat_err] and [lon_err] are written and never read.) *)
Record DecodeState : Type := mkDecodeState {
  d_is_even : bool;
  d_lat : interval;
  d_lon : interval
}.

Definition decode_init : DecodeState :=
  mkDecodeState true (-90, 90)%Q (-180, 180)%Q.

(** One turn of the inner loop, for the mask [BITS[j]]. *)
Definition decode_bit (cd : Z) (st : DecodeState) (mask : Z) : DecodeState :=
  if d_is_even st
  then mkDecodeState false (d_lat st) (refine_interval (d_lon st) cd mask)
  else mkDecodeState true (refine_interval (d_lat st) cd mask) (d_lon st).

(** One turn of the outer loop, for the character [c]. *)
Definition decode_char (st : DecodeState) (c : ascii) : DecodeState :=
  let cd := Js.indexOf BASE32 (String c EmptyString) in
  fold_left (decode_bit cd) BITS st.

Fixpoint decode_chars (geohash : string) (st : DecodeState) : DecodeState :=
  match geohash with
  | EmptyString => st
  | String c rest => decode_chars rest (decode_char st c)
  end.

(** [decodeGeohash] returns the array
    [[(lat[0], lon[0]); (lat[1], lon[1]); centre]]. *)
Definition decodeGeohash (geohash : string)
  : GeoCoordinate * GeoCoordinate * GeoCoordinate :=
  let st := decode_chars geohash decode_init in
  let la := d_lat st in
  let lo := d_lon st in
  (mkGeoCoordinate (fst la) (fst lo),
   mkGeoCoordinate (snd la) (snd lo),
   mkGeoCoordinate (midpoint (fst la) (snd la)) (midpoint (fst lo) (snd lo))).

(** The variables of the loop of [hashString]. *)
Record EncodeState : Type := mkEncodeState {
  e_is_even : bool;
  e_lat : interval;
  e_lon : interval;
  e_bit : nat;
  e_ch : Z;
  e_geohash : string
}.

Definition encode_init : EncodeState :=
  mkEncodeState true (-90, 90)%Q (-180, 180)%Q 0%nat 0 EmptyString.

(** The body of the [while] loop of [hashString]. *)
Definition encode_step (coordinate : GeoCoordinate) (st : EncodeState)
  : EncodeState :=
  let '(ch1, lat1, lon1) :=
    if e_is_even st then
      let mid := midpoint (fst (e_lon st)) (snd (e_lon st)) in
      if Qgtb (long coordinate) mid
      then (Z.lor (e_ch st) (nth (e_bit st) BITS 0), e_lat st,
            (mid, snd (e_lon st)))
      else (e_ch st, e_lat st, (fst (e_lon st), mid))
    else
      let mid := midpoint (fst (e_lat st)) (snd (e_lat st)) in
      if Qgtb (lat coordinate) mid
      then (Z.lor (e_ch st) (nth (e_bit st) BITS 0),
            (mid, snd (e_lat st)), e_lon st)
      else (e_ch st, (fst (e_lat st), mid), e_lon st) in
  let is_even1 := negb (e_is_even st) in
  if (e_bit st <? 4)%nat
  then mkEncodeState is_even1 lat1 lon1 (S (e_bit st)) ch1 (e_geohash st)
  else mkEncodeState is_even1 lat1 lon1 0%nat 0
         (Js.add (e_geohash st) (Js.index BASE32 ch1)).

(** [while (geohash.length < precision) body]. *)
Fixpoint encode_loop (fuel : nat) (coordinate : GeoCoordinate)
    (precision : Z) (st : EncodeState) : option string :=
  if Js.len (e_geohash st) <? precision then
    match fuel with
    | O => None
    | S fuel' =>
        encode_loop fuel' coordinate precision (encode_step coordinate st)
    end
  else Some (e_geohash st).

(** [hashString(precision)] of a GeoHash whose [coordinate] is given.
    Five turns of the loop add one character, so the fuel suffices
    ([hashString_returns] below). *)
Definition hashString (coordinate : GeoCoordinate) (precision : Z)
  : option string :=
  encode_loop (5 * Z.to_nat precision) coordinate precision encode_init.

End Codec.

(** ** The neighbour resolver *)

Inductive Cardinal : Type := dir_n | dir_s | dir_e | dir_w.

(** ['n'|'s'|'e'|'w'|'nw'|'ne'|'se'|'sw'] *)
Inductive Direction : Type :=
| card (d : Cardinal)
| dir_nw | dir_ne | dir_se | dir_sw.

Inductive Evenness : Type := even | odd.

Definition NEIGHBORS (d : Cardinal) (p : Evenness) : string :=
  match d, p with
  | dir_e, even => "bc01fg45238967deuvhjyznpkmstqrwx"
  | dir_e, odd  => "p0r21436x8zb9dcf5h7kjnmqesgutwvy"
  | dir_w, even => "238967debc01fg45kmstqrwxuvhjyznp"
  | dir_w, odd  => "14365h7k9dcfesgujnmqp0r2twvyx8zb"
  | dir_n, even => "p0r21436x8zb9dcf5h7kjnmqesgutwvy"
  | dir_n, odd  => "bc01fg45238967deuvhjyznpkmstqrwx"
  | dir_s, even => "14365h7k9dcfesgujnmqp0r2twvyx8zb"
  | dir_s, odd  => "238967debc01fg45kmstqrwxuvhjyznp"
  end.

Definition BORDER (d : Cardinal) (p : Evenness) : string :=
  match d, p with
  | dir_e, even => "bcfguvyz"
  | dir_e, odd  => "prxz"
  | dir_w, even => "0145hjnp"
  | dir_w, odd  => "028b"
  | dir_n, even => "prxz"
  | dir_n, odd  => "bcfguvyz"
  | dir_s, even => "028b"
  | dir_s, odd  => "0145hjnp"
  end.

(** [(hash.length % 2) ? 'odd' : 'even'] *)
Definition evenness_of (hash : string) : Evenness :=
  if Js.len hash mod 2 =? 0 then even else odd.

Notation "x <- a ;; b" :=
  (match a with Some x => b | None => None end)
  (at level 61, a at next level, right associativity).

(** [getNeighborAsHashString(direction, hash)].  [fuel] bounds the depth of
    the calls; [None] is a call that needs a deeper stack. *)
Fixpoint getNeighborAsHashString (fuel : nat) (direction : Direction)
    (hash : string) : option string :=
  match fuel with
  | O => None
  | S fuel' =>
      let lastChar := Js.slice hash (-1) in
      let evenness := evenness_of hash in
      let base := Js.substr0 hash (Js.len hash - 1) in
      match direction with
      | card dir =>
          base1 <- (if negb (Js.indexOf (BORDER dir evenness) lastChar =? -1)
                    then getNeighborAsHashString fuel' direction base
                    else Some base) ;;
          Some (Js.add base1
                  (Js.index BASE32
                     (Js.indexOf (NEIGHBORS dir evenness) lastChar)))
      | dir_nw =>
          base1 <- getNeighborAsHashString fuel' (card dir_n) hash ;;
          getNeighborAsHashString fuel' (card dir_w) base1
      | dir_ne =>
          base1 <- getNeighborAsHashString fuel' (card dir_n) hash ;;
          getNeighborAsHashString fuel' (card dir_e) base1
      | dir_se =>
          base1 <- getNeighborAsHashString fuel' (card dir_s) hash ;;
          getNeighborAsHashString fuel' (card dir_e) base1
      | dir_sw =>
          base1 <- getNeighborAsHashString fuel' (card dir_s) hash ;;
          getNeighborAsHashString fuel' (card dir_w) base1
      end
  end.

(** ** GeoHash objects *)

Record GeoHash : Type := mkGeoHash {
  coordinate : GeoCoordinate;
  northWest : GeoCoordinate;
  southEast : GeoCoordinate;
  northEast : GeoCoordinate;
  southWest : GeoCoordinate;
  centroid : GeoCoordinate;
  geohash : string
}.

Section Objects.

Variable midpoint : Q -> Q -> Q.

(** [new GeoHash(coordinate: string)] *)
Definition GeoHash_of_string (hash : string) : GeoHash :=
  let '(nw, se, c) := decodeGeohash midpoint hash in
  mkGeoHash c nw se
    (mkGeoCoordinate (lat nw) (long se))
    (mkGeoCoordinate (lat se) (long nw))
    c hash.

(** [new GeoHash(coordinate: GeoCoordinate, precision)] *)
Definition GeoHash_of_coordinate (c : GeoCoordinate) (precision : Z)
  : option GeoHash :=
  hash <- hashString midpoint c precision ;;
  let '(nw, se, ctr) := decodeGeohash midpoint hash in
  Some (mkGeoHash c nw se
          (mkGeoCoordinate (lat nw) (long se))
          (mkGeoCoordinate (lat se) (long nw))
          ctr hash).

Definition getAllCoordinates (g : GeoHash) : list GeoCoordinate :=
  [northWest g; northEast g; southEast g; southWest g; centroid g].

(** *** The radius search *)

(** The value of the trigonometric formula of [distanceTo], in km; [None]
    is NaN.  It is computed with [Math.sin], [Math.cos] and [Math.acos] and
    is a parameter here. *)
Variable sphereKm : GeoCoordinate -> GeoCoordinate -> option Q.

(** [this.distanceTo(where)]: 0 when both fields are [===], the formula
    otherwise. *)
Definition distanceTo (this whr : GeoCoordinate) : option Q :=
  if Qeq_bool (lat this) (lat whr) && Qeq_bool (long this) (long whr)
  then Some 0%Q
  else sphereKm this whr.

(** [o <= distance]; false for NaN. *)
Definition number_leb (o : option Q) (distance : Q) : bool :=
  match o with
  | Some x => Qle_bool x distance
  | None => false
  end.

(** [block.getAllCoordinates().map(o => o.distanceTo(centre))
      .filter(o => o <= distance).length] *)
Definition pointsInRange (centre : GeoCoordinate) (distance : Q)
    (block : GeoHash) : nat :=
  List.length
    (filter (fun o => number_leb o distance)
       (map (fun o => distanceTo o centre) (getAllCoordinates block))).

(** The [while] loop of [countHashesUntilDistance]; [depth] is the stack
    left to [getNeighborAsHashString], [fuel] bounds the turns. *)
Fixpoint count_loop (depth fuel : nat) (this : GeoHash) (distance : Q)
    (direction : Cardinal) (points : nat)
    (hash : string) (counter pointsInScope : nat) : option nat :=
  if (points <=? pointsInScope)%nat then
    match fuel with
    | O => None
    | S fuel' =>
        hash1 <- getNeighborAsHashString depth (card direction) hash ;;
        let currentBlock := GeoHash_of_string hash1 in
        count_loop depth fuel' this distance direction points hash1
          (S counter) (pointsInRange (centroid this) distance currentBlock)
    end
  else Some counter.

Definition countHashesUntilDistance (fuel : nat) (this : GeoHash)
    (distance : Q) (direction : Cardinal) (points : nat) : option nat :=
  count_loop fuel fuel this distance direction points (geohash this) 0 5.

(** The inner [for] loop: [searchWest] steps west and east of a row's
    cell, pushing both cells at each step. *)
Fixpoint row_loop (depth : nat) (westCounter : nat)
    (currentWest currentEast : string) (hashes : list GeoHash)
  : option (list GeoHash) :=
  match westCounter with
  | O => Some hashes
  | S k =>
      currentWest1 <- getNeighborAsHashString depth (card dir_w) currentWest ;;
      currentEast1 <- getNeighborAsHashString depth (card dir_e) currentEast ;;
      row_loop depth k currentWest1 currentEast1
        (hashes ++ [GeoHash_of_string currentWest1;
                    GeoHash_of_string currentEast1])
  end.

(** An outer [for] loop: [rows] rows, stepping [direction] after each. *)
Fixpoint rows_loop (depth : nat) (direction : Direction) (rows : nat)
    (searchWest : nat) (currentRow : string) (hashes : list GeoHash)
  : option (list GeoHash) :=
  match rows with
  | O => Some hashes
  | S k =>
      hashes1 <- row_loop depth searchWest currentRow currentRow
                   (hashes ++ [GeoHash_of_string currentRow]) ;;
      currentRow1 <- getNeighborAsHashString depth direction currentRow ;;
      rows_loop depth direction k searchWest currentRow1 hashes1
  end.

(** The array [hashes] of [getAllHashStringsWithinRadius] before the
    filter.  Both outer loops run to [searchNorth]; [searchSouth] is
    computed by the caller and not read. *)
Definition candidateHashes (depth : nat) (this : GeoHash)
    (searchNorth searchSouth searchWest : nat) : option (list GeoHash) :=
  hashes1 <- rows_loop depth (card dir_n) searchNorth searchWest
               (geohash this) [] ;;
  currentRow <- getNeighborAsHashString depth (card dir_s) (geohash this) ;;
  rows_loop depth (card dir_s) searchNorth searchWest currentRow hashes1.

Definition getAllHashStringsWithinRadius (fuel : nat) (this : GeoHash)
    (distance : Q) (points : nat) : option (list string) :=
  searchNorth <- countHashesUntilDistance fuel this distance dir_n points ;;
  searchSouth <- countHashesUntilDistance fuel this distance dir_s points ;;
  searchWest <- countHashesUntilDistance fuel this distance dir_w points ;;
  hashes <- candidateHashes fuel this searchNorth searchSouth searchWest ;;
  let hashesInRange :=
    filter (fun o => (points <=? pointsInRange (centroid this) distance o)%nat)
      hashes in
  Some (map geohash hashesInRange).

End Objects.

(** A stand-in for the trigonometric formula: 111 km per degree along both
    axes.  It is positive exactly on distinct points, which is all that a
    search at distance 0 observes. *)
Definition gridKm (a b : GeoCoordinate) : option Q :=
  Some (Qred (111 * (Qabs (lat a - lat b) + Qabs (long a - long b)))).

Definition WhiteHouse : GeoCoordinate :=
  mkGeoCoordinate (38897872 # 1000000) (- (77036510 # 1000000)).

(** ** The error kinds of the specification

    The source contains no [throw]: a call that returns completes normally. *)

Inductive GeoError : Type := InvalidPrecision | InvalidHashCharacter | EmptyHash.

Inductive completion (A : Type) : Type :=
| normal (v : A)
| throw (e : GeoError).
Arguments normal {A} v.
Arguments throw {A} e.

(** A call raises [e].  ([None] is a call whose fuel does not suffice.) *)
Definition fails_with {A : Type} (r : option (completion A)) (e : GeoError)
  : Prop := r = Some (throw e).

Definition encode (midpoint : Q -> Q -> Q) (c : GeoCoordinate) (precision : Z)
  : option (completion string) :=
  option_map normal (hashString midpoint c precision).

Definition decode (midpoint : Q -> Q -> Q) (hash : string)
  : option (completion (GeoCoordinate * GeoCoordinate * GeoCoordinate)) :=
  Some (normal (decodeGeohash midpoint hash)).

Definition neighbor (fuel : nat) (direction : Direction) (hash : string)
  : option (completion string) :=
  option_map normal (getNeighborAsHashString fuel direction hash).

(** ** Vocabulary of the properties *)

Definition alphabet : list ascii := list_ascii_of_string BASE32.

Definition in_alphabet (c : ascii) : bool := existsb (Ascii.eqb c) alphabet.

Fixpoint chars (h : string) : list ascii :=
  match h with
  | EmptyString => []
  | String c rest => c :: chars rest
  end.

Definition alphabet_valid (h : string) : bool := forallb in_alphabet (chars h).

(** Every character outside the alphabet replaced by ['z']. *)
Fixpoint replace_unknown (h : string) : string :=
  match h with
  | EmptyString => EmptyString
  | String c rest =>
      String (if in_alphabet c then c else "z"%char) (replace_unknown rest)
  end.

(** The bounding box [[lo, hi]] of a decoded triple contains [c]. *)
Definition box_contains (box : GeoCoordinate * GeoCoordinate * GeoCoordinate)
    (c : GeoCoordinate) : Prop :=
  let '(nw, se, _) := box in
  (lat nw <= lat c /\ lat c <= lat se)%Q /\
  (long nw <= long c /\ long c <= long se)%Q.

(** A step in direction [d] from [h] carries into the parent cell. *)
Definition crosses_border (d : Cardinal) (h : string) : bool :=
  negb (Js.indexOf (BORDER d (evenness_of h)) (Js.slice h (-1)) =? -1).

Inductive constructed (midpoint : Q -> Q -> Q) : GeoHash -> Prop :=
| constructed_of_string (h : string) :
    constructed midpoint (GeoHash_of_string midpoint h)
| constructed_of_coordinate (c : GeoCoordinate) (p : Z) (g : GeoHash) :
    GeoHash_of_coordinate midpoint c p = Some g ->
    constructed midpoint g.

(** The cardinal direction that undoes [d]. *)
Definition opposite (d : Cardinal) : Cardinal :=
  match d with
  | dir_n => dir_s
  | dir_s => dir_n
  | dir_e => dir_w
  | dir_w => dir_e
  end.

(** Both intervals of a decoder state are proper. *)
Definition proper_state (st : DecodeState) : Prop :=
  (fst (d_lat st) < snd (d_lat st))%Q /\ (fst (d_lon st) < snd (d_lon st))%Q.

(** What the decoder knows of an encoder state. *)
Definition enc_view (st : EncodeState) : DecodeState :=
  mkDecodeState (e_is_even st) (e_lat st) (e_lon st).

(** The intervals of an encoder state contain the coordinate. *)
Definition encloses (c : GeoCoordinate) (st : EncodeState) : Prop :=
  (fst (e_lat st) <= lat c /\ lat c <= snd (e_lat st))%Q /\
  (fst (e_lon st) <= long c /\ long c <= snd (e_lon st))%Q.

(** The comparison that a turn of the loop of [hashString] makes. *)
Definition encode_bit (midpoint : Q -> Q -> Q) (c : GeoCoordinate)
    (st : EncodeState) : bool :=
  if e_is_even st
  then Qgtb (long c) (midpoint (fst (e_lon st)) (snd (e_lon st)))
  else Qgtb (lat c) (midpoint (fst (e_lat st)) (snd (e_lat st))).

(** A turn of that loop whose comparison gives [b]. *)
Definition step_with (midpoint : Q -> Q -> Q) (b : bool) (st : EncodeState)
  : EncodeState :=
  let ch1 := if b then Z.lor (e_ch st) (nth (e_bit st) BITS 0) else e_ch st in
  let lat1 :=
    if e_is_even st then e_lat st
    else if b then (midpoint (fst (e_lat st)) (snd (e_lat st)), snd (e_lat st))
         else (fst (e_lat st), midpoint (fst (e_lat st)) (snd (e_lat st))) in
  let lon1 :=
    if e_is_even st
    then if b then (midpoint (fst (e_lon st)) (snd (e_lon st)), snd (e_lon st))
         else (fst (e_lon st), midpoint (fst (e_lon st)) (snd (e_lon st)))
    else e_lon st in
  if (e_bit st <? 4)%nat
  then mkEncodeState (negb (e_is_even st)) lat1 lon1 (S (e_bit st)) ch1
         (e_geohash st)
  else mkEncodeState (negb (e_is_even st)) lat1 lon1 0%nat 0
         (Js.add (e_geohash st) (Js.index BASE32 ch1)).

(** ** The wrapping functions of Dms

    [toDMSString] formats its latitude through [Dms.wrap90] and its longitude
    through [Dms.wrap180].  They are embedded on whole numbers of degrees:
    on such doubles, below 2^53, the remainder [%], the sums and the
    comparisons are exact, and [%] is the remainder of the truncated
    division, [Z.rem]. *)

Module Dms.

Definition wrap360 (degrees : Z) : Z :=
  if (0 <=? degrees) && (degrees <? 360) then degrees
  else Z.rem (Z.rem degrees 360 + 360) 360.

Definition wrap180 (degrees : Z) : Z :=
  if (-180 <? degrees) && (degrees <=? 180) then degrees
  else Z.rem (degrees + 540) 360 - 180.

Definition wrap90 (degrees : Z) : Z :=
  if (-90 <=? degrees) && (degrees <=? 90) then degrees
  else Z.abs (Z.rem (Z.rem degrees 360 + 270) 360 - 180) - 90.

(** [compassPoint] either returns or throws a [RangeError]. *)
Inductive outcome (A : Type) : Type :=
| returns (a : A)
| RangeError.

Arguments returns {A} a.
Arguments RangeError {A}.

Definition cardinals : list string :=
  [ "N"; "NNE"; "NE"; "ENE";
    "E"; "ESE"; "SE"; "SSE";
    "S"; "SSW"; "SW"; "WSW";
    "W"; "WNW"; "NW"; "NNW" ]%string.

(** [Math.round]: the nearest whole number, halves upwards. *)
Definition round (x : Q) : Z := Qfloor (x + (1 # 2)).

(** [array[i]] for a number [i]: [undefined] unless [i] is a whole number
    that is an index of the array. *)
Definition lookup (array : list string) (i : Q) : option string :=
  if Qeq_bool i (inject_Z (Qfloor i)) && (0 <=? Qfloor i)
  then nth_error array (Z.to_nat (Qfloor i))
  else None.

(** [compassPoint] on a whole number of degrees.  The product
    [bearing*n] is exact and its quotient by 360 is either a whole number
    and a half or at least 1/720 away from one, so that [Math.round] of the
    double is the rounding of the exact quotient. *)
Definition compassPoint (bearing precision : Z) : outcome (option string) :=
  if negb (existsb (Z.eqb precision) [1; 2; 3]) then RangeError
  else
    let bearing := wrap360 bearing in
    let n := 4 * 2 ^ (precision - 1) in
    let cardinal :=
      lookup cardinals
        (inject_Z (Z.rem (round (inject_Z (bearing * n) / 360)) n * 16)
           / inject_Z n) in
    returns cardinal.

End Dms.

(** The check of one bearing in 0..359 at one precision: the compass point
    returned is the one of the [n] points, 360/n degrees apart, that is
    nearest to the bearing, the half-way bearings going clockwise. *)
Definition compass_sector (precision w : Z) : Z :=
  let n := 4 * 2 ^ (precision - 1) in
  Z.rem (Dms.round (inject_Z (w * n) / 360)) n.

Definition nearest_point (n w k : Z) : Prop :=
  360 * (2 * k - 1) <= 2 * n * w < 360 * (2 * k + 1) \/
  k = 0 /\ 360 * (2 * n - 1) <= 2 * n * w.

Definition nearest_pointb (n w k : Z) : bool :=
  (360 * (2 * k - 1) <=? 2 * n * w) && (2 * n * w <? 360 * (2 * k + 1)) ||
  (k =? 0) && (360 * (2 * n - 1) <=? 2 * n * w).

Definition compass_ok (precision w : Z) : bool :=
  let n := 4 * 2 ^ (precision - 1) in
  let k := compass_sector precision w in
  (0 <=? k) && (k <? n) && nearest_pointb n w k &&
  match Dms.compassPoint w precision,
        nth_error Dms.cardinals (Z.to_nat (k * (16 / n))) with
  | Dms.returns (Some a), Some b => String.eqb a b
  | _, _ => false
  end.

(** ** Further functions of GeoHash *)

(** [getAllNeighborsAsHashStrings(hash)]: the eight calls in the order of
    the array literal. *)
Definition getAllNeighborsAsHashStrings (fuel : nat) (hash : string)
  : option (list string) :=
  nw <- getNeighborAsHashString fuel dir_nw hash ;;
  n <- getNeighborAsHashString fuel (card dir_n) hash ;;
  ne <- getNeighborAsHashString fuel dir_ne hash ;;
  e <- getNeighborAsHashString fuel (card dir_e) hash ;;
  se <- getNeighborAsHashString fuel dir_se hash ;;
  s <- getNeighborAsHashString fuel (card dir_s) hash ;;
  sw <- getNeighborAsHashString fuel dir_sw hash ;;
  w <- getNeighborAsHashString fuel (card dir_w) hash ;;
  Some [nw; n; ne; e; se; s; sw; w].

(** [BASE32[NEIGHBORS[d][p].indexOf(c)]] for a character [c]. *)
Definition table_char (d : Cardinal) (p : Evenness) (c : ascii)
  : option string :=
  Js.index BASE32 (Js.indexOf (NEIGHBORS d p) (String c EmptyString)).

(** [BORDER[d][p].indexOf(c) != -1] for a character [c]. *)
Definition on_border (d : Cardinal) (p : Evenness) (c : ascii) : bool :=
  negb (Js.indexOf (BORDER d p) (String c EmptyString) =? -1).

(** One of the two directions runs north-south, the other east-west. *)
Definition perpendicular (d1 d2 : Cardinal) : bool :=
  match d1, d2 with
  | (dir_n | dir_s), (dir_e | dir_w) => true
  | (dir_e | dir_w), (dir_n | dir_s) => true
  | _, _ => false
  end.

(** ** Vocabulary of the further properties *)

(** The bounding box of [inner] lies within the bounding box of [outer]. *)
Definition cell_within
    (inner outer : GeoCoordinate * GeoCoordinate * GeoCoordinate) : Prop :=
  let '(lo1, hi1, _) := inner in
  let '(lo2, hi2, _) := outer in
  (lat lo2 <= lat lo1 /\ lat hi1 <= lat hi2)%Q /\
  (long lo2 <= long lo1 /\ long hi1 <= long hi2)%Q.

(** [c] lies in the box, its lower edges excluded. *)
Definition in_half_open_cell
    (box : GeoCoordinate * GeoCoordinate * GeoCoordinate) (c : GeoCoordinate)
  : Prop :=
  let '(lo, hi, _) := box in
  (lat lo < lat c /\ lat c <= lat hi)%Q /\
  (long lo < long c /\ long c <= long hi)%Q.

(** The intervals of a decoder state are not reversed. *)
Definition ordered_state (st : DecodeState) : Prop :=
  (fst (d_lat st) <= snd (d_lat st))%Q /\ (fst (d_lon st) <= snd (d_lon st))%Q.

(** The intervals of [inner] lie within those of [outer]. *)
Definition state_within (inner outer : DecodeState) : Prop :=
  (fst (d_lat outer) <= fst (d_lat inner) /\
   snd (d_lat inner) <= snd (d_lat outer))%Q /\
  (fst (d_lon outer) <= fst (d_lon inner) /\
   snd (d_lon inner) <= snd (d_lon outer))%Q.

(** [c] lies in the intervals of a decoder state, lower bounds excluded. *)
Definition state_holds (st : DecodeState) (c : GeoCoordinate) : Prop :=
  (fst (d_lat st) < lat c /\ lat c <= snd (d_lat st))%Q /\
  (fst (d_lon st) < long c /\ long c <= snd (d_lon st))%Q.

(** The bit of the code [cd] that the mask selects. *)
Definition code_bit (cd mask : Z) : bool := negb (Z.land cd mask =? 0).

(** After [k] halvings in all, longitude first: the parity of [k] and the
    sizes of the two intervals. *)
Definition sized_state (st : DecodeState) (k : Z) : Prop :=
  d_is_even st = Z.even k /\
  ((snd (d_lon st) - fst (d_lon st)) * inject_Z (2 ^ ((k + 1) / 2)) == 360)%Q /\
  ((snd (d_lat st) - fst (d_lat st)) * inject_Z (2 ^ (k / 2)) == 180)%Q.

(** The table row that the code reads for the last character of a hash
    whose parent has been decoded to a state with [is_even = ie]. *)
Definition parity_of (ie : bool) : Evenness := if ie then odd else even.

Definition bit_weight (cd mask : Z) (w : Q) : Q :=
  if code_bit cd mask then w else 0%Q.

(** The column and the row of the cell of a character within the cell of
    its parent, counted from the west and from the south: the longitude
    bits and the latitude bits of its code. *)
Definition char_col (ie : bool) (cd : Z) : Q :=
  if ie
  then (bit_weight cd 16 4 + bit_weight cd 4 2 + bit_weight cd 1 1)%Q
  else (bit_weight cd 8 2 + bit_weight cd 2 1)%Q.

Definition char_row (ie : bool) (cd : Z) : Q :=
  if ie
  then (bit_weight cd 8 2 + bit_weight cd 2 1)%Q
  else (bit_weight cd 16 4 + bit_weight cd 4 2 + bit_weight cd 1 1)%Q.

Definition char_cols (ie : bool) : Q := if ie then 8%Q else 4%Q.
Definition char_rows (ie : bool) : Q := if ie then 4%Q else 8%Q.

(** The step of a direction, in cells to the north and to the east. *)
Definition cardinal_dy (d : Cardinal) : Q :=
  match d with dir_n => 1 | dir_s => -1 | _ => 0 end.

Definition cardinal_dx (d : Cardinal) : Q :=
  match d with dir_e => 1 | dir_w => -1 | _ => 0 end.

Definition direction_dy (direction : Direction) : Q :=
  match direction with
  | card d => cardinal_dy d
  | dir_nw | dir_ne => 1
  | dir_se | dir_sw => -1
  end.

Definition direction_dx (direction : Direction) : Q :=
  match direction with
  | card d => cardinal_dx d
  | dir_ne | dir_se => 1
  | dir_nw | dir_sw => -1
  end.

(** The second state has the size of the first and lies [dy] heights to the
    north and [dx] widths to the east of it. *)
Definition state_offset (dy dx : Q) (s1 s2 : DecodeState) : Prop :=
  d_is_even s1 = d_is_even s2 /\
  (fst (d_lat s2) == fst (d_lat s1) + dy * (snd (d_lat s1) - fst (d_lat s1)) /\
   snd (d_lat s2) - fst (d_lat s2) == snd (d_lat s1) - fst (d_lat s1))%Q /\
  (fst (d_lon s2) == fst (d_lon s1) + dx * (snd (d_lon s1) - fst (d_lon s1)) /\
   snd (d_lon s2) - fst (d_lon s2) == snd (d_lon s1) - fst (d_lon s1))%Q.

(** The same for decoded cells: the second has the size of the first and
    lies [dy] heights to the north and [dx] widths to the east of it. *)
Definition cell_offset (dy dx : Q)
    (box1 box2 : GeoCoordinate * GeoCoordinate * GeoCoordinate) : Prop :=
  let '(lo1, hi1, _) := box1 in
  let '(lo2, hi2, _) := box2 in
  (lat lo2 == lat lo1 + dy * (lat hi1 - lat lo1) /\
   lat hi2 - lat lo2 == lat hi1 - lat lo1)%Q /\
  (long lo2 == long lo1 + dx * (long hi1 - long lo1) /\
   long hi2 - long lo2 == long hi1 - long lo1)%Q.


(** [k] steps in the direction [d]. *)
Fixpoint walk (fuel : nat) (d : Cardinal) (k : nat) (h : string)
  : option string :=
  match k with
  | O => Some h
  | S k' =>
      h1 <- getNeighborAsHashString fuel (card d) h ;;
      walk fuel d k' h1
  end.

(** The table row for the character that follows [n] characters. *)
Definition evenness_after (n : nat) : Evenness :=
  if Nat.odd n then even else odd.

(** Every character of [h], which follows [pos] characters, lies on the
    border of the direction [d]. *)
Fixpoint border_run (d : Cardinal) (pos : nat) (h : string) : bool :=
  match h with
  | EmptyString => true
  | String c rest =>
      on_border d (evenness_after pos) c && border_run d (S pos) rest
  end.

Definition all_on_border (d : Cardinal) (h : string) : bool :=
  border_run d 0 h.

(** * Properties *)

(** ** The primitives on the inputs that matter *)

Example indexOf_empty : Js.indexOf "prxz" "" = 0.
Proof. reflexivity. Qed.

Example indexOf_absent : Js.indexOf BASE32 "a" = -1.
Proof. reflexivity. Qed.

Example slice_empty : Js.slice "" (-1) = "".
Proof. reflexivity. Qed.

Example substr0_empty : Js.substr0 "" (Js.len "" - 1) = "".
Proof. reflexivity. Qed.

Example index_minus_one : Js.index BASE32 (-1) = None.
Proof. reflexivity. Qed.

Example land_minus_one : map (Z.land (-1)) BITS = BITS.
Proof. reflexivity. Qed.

(** The eight neighbours that the test suite expects. *)
Example neighbors_dqcjqcps :
  map (fun d => getNeighborAsHashString 2 d "dqcjqcps")
    [card dir_n; card dir_s; card dir_e; card dir_w;
     dir_ne; dir_se; dir_nw; dir_sw] =
  map Some
    ["dqcjqcpt"; "dqcjqcpe"; "dqcjqcpu"; "dqcjqcpk";
     "dqcjqcpv"; "dqcjqcpg"; "dqcjqcpm"; "dqcjqcp7"].
Proof. reflexivity. Qed.

(** ** Decoding *)

Lemma indexOf_unknown (c : ascii) :
  in_alphabet c = false -> Js.indexOf BASE32 (String c EmptyString) = -1.
Proof.
  destruct c as [[] [] [] [] [] [] [] []]; vm_compute;
    intros H; solve [reflexivity | discriminate H].
Qed.

Lemma decode_char_unknown (midpoint : Q -> Q -> Q) (st : DecodeState) (c : ascii) :
  in_alphabet c = false ->
  decode_char midpoint st c = decode_char midpoint st "z"%char.
Proof.
  intros H. unfold decode_char. rewrite (indexOf_unknown c H). reflexivity.
Qed.

Lemma decode_chars_replace_unknown (midpoint : Q -> Q -> Q) (h : string) :
  forall st, decode_chars midpoint (replace_unknown h) st = decode_chars midpoint h st.
Proof.
  induction h as [|c rest IH]; intros st; simpl.
  - reflexivity.
  - destruct (in_alphabet c) eqn:E.
    + apply IH.
    + rewrite IH. now rewrite (decode_char_unknown midpoint st c E).
Qed.

Lemma decodeGeohash_replace_unknown (midpoint : Q -> Q -> Q) (h : string) :
  decodeGeohash midpoint h = decodeGeohash midpoint (replace_unknown h).
Proof.
  unfold decodeGeohash. now rewrite decode_chars_replace_unknown.
Qed.

(** C9.  Whatever the rounding of the midpoints, decoding a hash gives the
    bounding box and the centre of the hash in which every character outside
    the alphabet is replaced by ['z']: the lookup of such a character is -1,
    and -1 has the five mask bits set, as 31 (the code of ['z']) has. *)
Theorem decode_unknown_as_z (midpoint : Q -> Q -> Q) (h : string) :
  decodeGeohash midpoint h = decodeGeohash midpoint (replace_unknown h) /\
  forallb (fun mask => negb (Z.land (-1) mask =? 0)
                       && negb (Z.land (Js.indexOf BASE32 "z") mask =? 0))
    BITS = true.
Proof.
  split; [apply decodeGeohash_replace_unknown | reflexivity].
Qed.

(** C10.  The constructor applied to the empty string returns the whole
    globe: the field [northWest] is (-90, -180), the field [southEast] is
    (90, 180) and, the two midpoints being 0, the centre is (0, 0). *)
Theorem GeoHash_of_empty_string (midpoint : Q -> Q -> Q) :
  midpoint (-90)%Q 90%Q = 0%Q ->
  midpoint (-180)%Q 180%Q = 0%Q ->
  let g := GeoHash_of_string midpoint "" in
  northWest g = mkGeoCoordinate (-90) (-180) /\
  southEast g = mkGeoCoordinate 90 180 /\
  centroid g = mkGeoCoordinate 0 0 /\
  geohash g = "".
Proof.
  intros Hlat Hlon. cbn. rewrite Hlat, Hlon. repeat split.
Qed.

Lemma GeoHash_of_empty_string_exact :
  let g := GeoHash_of_string exact_midpoint "" in
  northWest g = mkGeoCoordinate (-90) (-180) /\
  southEast g = mkGeoCoordinate 90 180 /\
  centroid g = mkGeoCoordinate 0 0 /\
  geohash g = "".
Proof.
  apply (GeoHash_of_empty_string exact_midpoint); reflexivity.
Defined.

(** *** The corners of a decoded cell *)

Lemma exact_midpoint_between (a b : Q) :
  (a < b)%Q -> (a < exact_midpoint a b /\ exact_midpoint a b < b)%Q.
Proof.
  intros H. unfold exact_midpoint. rewrite Qred_correct.
  split.
  - apply Qlt_shift_div_l; lra.
  - apply Qlt_shift_div_r; lra.
Qed.

Lemma refine_interval_proper (iv : interval) (cd mask : Z) :
  (fst iv < snd iv)%Q ->
  let iv' := refine_interval exact_midpoint iv cd mask in
  (fst iv' < snd iv')%Q.
Proof.
  intros H. destruct (exact_midpoint_between _ _ H) as [Hlo Hhi].
  unfold refine_interval. destruct (negb _); simpl; assumption.
Qed.

Lemma decode_bit_proper (cd : Z) (st : DecodeState) (mask : Z) :
  proper_state st -> proper_state (decode_bit exact_midpoint cd st mask).
Proof.
  intros [Hla Hlo]. unfold decode_bit, proper_state.
  destruct (d_is_even st); simpl; split;
    try assumption; now apply refine_interval_proper.
Qed.

Lemma decode_char_proper (st : DecodeState) (c : ascii) :
  proper_state st -> proper_state (decode_char exact_midpoint st c).
Proof.
  unfold decode_char. generalize (Js.indexOf BASE32 (String c "")) as cd.
  intros cd. revert st.
  induction BITS as [|m ms IH]; intros st H; simpl.
  - exact H.
  - apply IH. now apply decode_bit_proper.
Qed.

Lemma decode_chars_proper (h : string) :
  forall st, proper_state st -> proper_state (decode_chars exact_midpoint h st).
Proof.
  induction h as [|c rest IH]; intros st H; simpl.
  - exact H.
  - apply IH. now apply decode_char_proper.
Qed.

(** C2.  With exact midpoints the field [northWest] of every decoded cell
    lies strictly south of the field [southEast]: [northWest] holds the lower
    bound of the latitude interval and [southEast] its upper bound.  The
    longitudes are in the stated order. *)
Theorem decodeGeohash_northWest_is_southern (h : string) :
  let g := GeoHash_of_string exact_midpoint h in
  (lat (northWest g) < lat (southEast g))%Q /\
  (long (northWest g) < long (southEast g))%Q.
Proof.
  unfold GeoHash_of_string, decodeGeohash.
  assert (H : proper_state (decode_chars exact_midpoint h (decode_init))).
  { apply decode_chars_proper. split; reflexivity. }
  destruct H as [Hla Hlo]. simpl. split; assumption.
Qed.

(** The cell of the test suite: the tests expect [northWest.lat] close to
    38.897953 and [southEast.lat] close to 38.897781; the code returns them
    the other way round. *)
Example decodeGeohash_dqcjqcps :
  let g := GeoHash_of_string exact_midpoint "dqcjqcps" in
  (lat (northWest g) == 38.89778137207031250)%Q /\
  (lat (southEast g) == 38.8979530334472656250)%Q /\
  (long (northWest g) == -77.036819458007812500)%Q /\
  (long (southEast g) == -77.03647613525390625)%Q /\
  Qle_bool (lat (southEast g)) (lat (northWest g)) = false.
Proof. vm_compute. repeat split; reflexivity. Qed.

(** ** Encoding *)

Example hashString_WhiteHouse_8 :
  hashString exact_midpoint WhiteHouse 8 = Some "dqcjqcps".
Proof. vm_compute. reflexivity. Qed.

Example hashString_WhiteHouse_7 :
  hashString exact_midpoint WhiteHouse 7 = Some "dqcjqcp".
Proof. vm_compute. reflexivity. Qed.

(** C6.  With a precision that is zero or negative the loop of [hashString]
    is not entered: the call returns the empty string and raises nothing. *)
Theorem encode_nonpositive_precision (midpoint : Q -> Q -> Q)
    (c : GeoCoordinate) (precision : Z) :
  precision <= 0 ->
  encode midpoint c precision = Some (normal "").
Proof.
  intros Hp. unfold encode, hashString.
  replace (Z.to_nat precision) with 0%nat by lia.
  simpl. unfold Js.len. simpl.
  destruct (0 <? precision) eqn:E; [apply Z.ltb_lt in E; lia | reflexivity].
Qed.

Lemma encode_nonpositive_precision_witness :
  encode exact_midpoint WhiteHouse (-3) = Some (normal "").
Proof.
  apply (encode_nonpositive_precision exact_midpoint WhiteHouse (-3)). lia.
Defined.

Lemma encode_zero_precision_not_rejected :
  ~ fails_with (encode exact_midpoint WhiteHouse 0) InvalidPrecision.
Proof.
  unfold fails_with. vm_compute. discriminate.
Qed.

(** *** Round trip *)

Section RoundTrip.

Variable midpoint : Q -> Q -> Q.
Variable c : GeoCoordinate.
Variable precision : Z.

Lemma Qgtb_true (a b : Q) : Qgtb a b = true -> (b <= a)%Q.
Proof.
  unfold Qgtb. intros H. apply negb_true_iff in H.
  apply Qlt_le_weak, Qnot_le_lt. intros Hle.
  apply Qle_bool_iff in Hle. congruence.
Qed.

Lemma Qgtb_false (a b : Q) : Qgtb a b = false -> (a <= b)%Q.
Proof.
  unfold Qgtb. intros H. apply negb_false_iff in H.
  now apply Qle_bool_iff.
Qed.

Lemma encode_step_encloses (st : EncodeState) :
  encloses c st -> encloses c (encode_step midpoint c st).
Proof.
  unfold encloses, encode_step. intros [[H1 H2] [H3 H4]].
  destruct (e_is_even st);
    match goal with |- context [Qgtb ?a ?b] =>
      destruct (Qgtb a b) eqn:E;
      [apply Qgtb_true in E | apply Qgtb_false in E]
    end;
    destruct (e_bit st <? 4)%nat; simpl; auto.
Qed.

Lemma encode_step_with (st : EncodeState) :
  encode_step midpoint c st = step_with midpoint (encode_bit midpoint c st) st.
Proof.
  unfold encode_step, step_with, encode_bit.
  destruct (e_is_even st);
    match goal with |- context [Qgtb ?a ?b] => destruct (Qgtb a b) end;
    reflexivity.
Qed.

(** Five turns from a character boundary append the character that the
    decoder reads back as the same five halvings. *)
Lemma five_steps_decode (is_even : bool) (la lo : interval) (g : string)
    (b1 b2 b3 b4 b5 : bool) :
  let st5 :=
    step_with midpoint b5 (step_with midpoint b4 (step_with midpoint b3
      (step_with midpoint b2 (step_with midpoint b1
         (mkEncodeState is_even la lo 0 0 g))))) in
  exists ch : ascii,
    e_geohash st5 = g ++ String ch EmptyString /\
    e_bit st5 = 0%nat /\ e_ch st5 = 0 /\
    enc_view st5 =
      decode_char midpoint (mkDecodeState is_even la lo) ch.
Proof.
  destruct la as [la0 la1], lo as [lo0 lo1].
  destruct is_even, b1, b2, b3, b4, b5;
    (eexists; split; [cbn; reflexivity | repeat split]).
Qed.

Lemma encode_loop_unfold (fuel : nat) (st : EncodeState) :
  Js.len (e_geohash st) < precision ->
  encode_loop midpoint (S fuel) c precision st =
  encode_loop midpoint fuel c precision (encode_step midpoint c st).
Proof.
  intros H. simpl. apply Z.ltb_lt in H. now rewrite H.
Qed.

Lemma encode_step_within_char (st : EncodeState) :
  (e_bit st < 4)%nat ->
  e_geohash (encode_step midpoint c st) = e_geohash st /\
  e_bit (encode_step midpoint c st) = S (e_bit st).
Proof.
  intros H. rewrite encode_step_with. unfold step_with.
  destruct (Nat.ltb_spec (e_bit st) 4); [simpl; auto | lia].
Qed.

Lemma iter_five {A : Type} (f : A -> A) (x : A) :
  Nat.iter 5 f x = f (f (f (f (f x)))).
Proof. reflexivity. Qed.

(** Up to four turns after a character boundary leave the hash as it is. *)
Lemma encode_steps_within_char (n : nat) (st : EncodeState) :
  (n <= 4)%nat ->
  e_bit st = 0%nat ->
  e_geohash (Nat.iter n (encode_step midpoint c) st) = e_geohash st /\
  e_bit (Nat.iter n (encode_step midpoint c) st) = n.
Proof.
  induction n as [|n IH]; intros Hn Hb; [split; auto|].
  destruct IH as [G B]; [lia | exact Hb |].
  destruct (encode_step_within_char (Nat.iter n (encode_step midpoint c) st))
    as [G' B']; [lia|].
  rewrite Nat.iter_succ. split; congruence.
Qed.

(** [n] turns of the loop, as long as the hash is too short. *)
Lemma encode_loop_steps (n : nat) :
  forall fuel st,
    (forall i, (i < n)%nat ->
       Js.len (e_geohash (Nat.iter i (encode_step midpoint c) st)) < precision) ->
    encode_loop midpoint (n + fuel) c precision st =
    encode_loop midpoint fuel c precision
      (Nat.iter n (encode_step midpoint c) st).
Proof.
  induction n as [|n IH]; intros fuel st H; [reflexivity|].
  rewrite Nat.iter_succ_r. change (S n + fuel)%nat with (S (n + fuel)).
  rewrite encode_loop_unfold by (apply (H 0%nat); lia).
  apply IH. intros i Hi. rewrite <- Nat.iter_succ_r. apply H. lia.
Qed.

Lemma encode_loop_five (fuel : nat) (st : EncodeState) :
  e_bit st = 0%nat ->
  Js.len (e_geohash st) < precision ->
  encode_loop midpoint (5 + fuel) c precision st =
  encode_loop midpoint fuel c precision
    (Nat.iter 5 (encode_step midpoint c) st).
Proof.
  intros Hb Hl. apply encode_loop_steps. intros i Hi.
  destruct (encode_steps_within_char i st) as [G _]; [lia | exact Hb |].
  now rewrite G.
Qed.

Lemma decode_chars_app (g1 g2 : string) :
  forall st,
    decode_chars midpoint (g1 ++ g2) st =
    decode_chars midpoint g2 (decode_chars midpoint g1 st).
Proof.
  induction g1 as [|a g1 IH]; intros st; simpl; [reflexivity | apply IH].
Qed.

Lemma length_app (g1 g2 : string) :
  String.length (g1 ++ g2) = (String.length g1 + String.length g2)%nat.
Proof.
  induction g1 as [|a g1 IH]; simpl; [reflexivity | now rewrite IH].
Qed.

Lemma len_app_char (g : string) (ch : ascii) :
  Js.len (g ++ String ch EmptyString) = Js.len g + 1.
Proof.
  unfold Js.len. rewrite length_app. simpl. lia.
Qed.

(** From a character boundary where [k] characters are missing, [5 * k]
    turns finish the hash; the decoder follows the encoder. *)
Lemma encode_loop_chars (k : nat) :
  forall st,
    e_bit st = 0%nat -> e_ch st = 0 ->
    Js.len (e_geohash st) + Z.of_nat k = precision ->
    decode_chars midpoint (e_geohash st) decode_init = enc_view st ->
    exists h,
      encode_loop midpoint (5 * k) c precision st = Some h /\
      Js.len h = precision /\
      (encloses c st -> box_contains (decodeGeohash midpoint h) c).
Proof.
  induction k as [|k IH]; intros st Hb Hc Hl Hd.
  - exists (e_geohash st). simpl.
    replace (Js.len (e_geohash st) <? precision) with false
      by (symmetry; apply Z.ltb_ge; lia).
    split; [reflexivity|]. split; [lia|].
    unfold box_contains, decodeGeohash. rewrite Hd. intros He. exact He.
  - replace (5 * S k)%nat with (5 + 5 * k)%nat by lia.
    rewrite encode_loop_five by (assumption || lia).
    assert (He5 : encloses c st ->
                  encloses c (Nat.iter 5 (encode_step midpoint c) st)).
    { intros He. rewrite iter_five. now repeat apply encode_step_encloses. }
    rewrite iter_five in *.
    revert He5. rewrite !encode_step_with.
    repeat match goal with
           | |- context [encode_bit midpoint c ?s] =>
               generalize (encode_bit midpoint c s); intro
           end.
    destruct st as [ie la lo bit ch g]. simpl in Hb, Hc, Hl, Hd. subst bit ch.
    match goal with
    | |- context [step_with midpoint ?b5 (step_with midpoint ?b4 (step_with midpoint ?b3
           (step_with midpoint ?b2 (step_with midpoint ?b1 _))))] =>
        destruct (five_steps_decode ie la lo g b1 b2 b3 b4 b5)
          as (a & Hg & Hb5 & Hc5 & Hv)
    end.
    intros He5.
    match goal with
    | |- context [encode_loop _ _ _ _ ?s5] =>
        destruct (IH s5) as (h & H1 & H2 & H3); try assumption
    end.
    + rewrite Hg, len_app_char. lia.
    + rewrite Hg, decode_chars_app, Hd. simpl. now rewrite Hv.
    + exists h. split; [exact H1|]. split; [exact H2|].
      intros He. apply H3, He5, He.
Qed.

End RoundTrip.

(** [hashString] returns for every coordinate and every precision that is
    not negative, with a hash of [precision] characters. *)
Lemma hashString_returns (midpoint : Q -> Q -> Q) (c : GeoCoordinate)
    (precision : Z) :
  0 <= precision ->
  exists h, hashString midpoint c precision = Some h /\
            Js.len h = precision /\
            (encloses c (encode_init) ->
             box_contains (decodeGeohash midpoint h) c).
Proof.
  intros Hp. unfold hashString.
  apply encode_loop_chars; try reflexivity.
  unfold Js.len. simpl. lia.
Qed.

(** C1.  For a coordinate within the legal domain and a precision of at
    least 1, [hashString] returns a hash, and the bounding box decoded from
    it contains the coordinate, whatever the rounding of the midpoints. *)
Theorem encode_decode_contains (midpoint : Q -> Q -> Q) (c : GeoCoordinate)
    (precision : Z) :
  (-90 <= lat c /\ lat c <= 90)%Q ->
  (-180 <= long c /\ long c <= 180)%Q ->
  1 <= precision ->
  exists h, hashString midpoint c precision = Some h /\
            box_contains (decodeGeohash midpoint h) c.
Proof.
  intros Hla Hlo Hp.
  destruct (hashString_returns midpoint c precision) as (h & H1 & _ & H2);
    [lia|].
  exists h. split; [exact H1|]. apply H2. split; assumption.
Qed.

Lemma encode_decode_contains_WhiteHouse :
  exists h, hashString exact_midpoint WhiteHouse 8 = Some h /\
            box_contains (decodeGeohash exact_midpoint h) WhiteHouse.
Proof.
  apply (encode_decode_contains exact_midpoint WhiteHouse 8).
  - split; vm_compute; discriminate.
  - split; vm_compute; discriminate.
  - lia.
Defined.

(** ** The neighbour resolver *)

(** *** The last character and the parent of a hash *)

Lemma substring_skip (b t : string) (n : nat) :
  substring (String.length b) n (b ++ t) = substring 0 n t.
Proof.
  induction b as [|a b IH]; simpl; [reflexivity | exact IH].
Qed.

Lemma substring_keep (b t : string) :
  substring 0 (String.length b) (b ++ t) = b.
Proof.
  induction b as [|a b IH]; simpl.
  - now destruct t.
  - now rewrite IH.
Qed.

Lemma slice_last (b : string) (c : ascii) :
  Js.slice (b ++ String c EmptyString) (-1) = String c EmptyString.
Proof.
  unfold Js.slice. rewrite len_app_char.
  change (-1 <? 0) with true. cbv beta iota zeta.
  replace (Z.max (Js.len b + 1 + -1) 0) with (Js.len b) by (unfold Js.len; lia).
  replace (Z.to_nat (Js.len b + 1 - Js.len b)) with 1%nat by lia.
  unfold Js.len. rewrite Nat2Z.id, substring_skip. reflexivity.
Qed.

Lemma substr0_parent (b : string) (c : ascii) :
  Js.substr0 (b ++ String c EmptyString)
    (Js.len (b ++ String c EmptyString) - 1) = b.
Proof.
  unfold Js.substr0. rewrite len_app_char.
  replace (Js.len b + 1 - 1) with (Js.len b) by lia.
  destruct (Z.leb_spec (Js.len b) 0) as [H|H].
  - destruct b; [reflexivity | unfold Js.len in H; simpl in H; lia].
  - replace (Z.min (Js.len b) (Js.len b + 1)) with (Js.len b) by lia.
    unfold Js.len. rewrite Nat2Z.id. apply substring_keep.
Qed.

Lemma string_snoc (h : string) :
  h <> EmptyString -> exists b c, h = b ++ String c EmptyString.
Proof.
  induction h as [|a h IH]; intros H; [congruence|].
  destruct h as [|a' h'].
  - exists EmptyString, a. reflexivity.
  - destruct IH as (b & c & E); [discriminate|].
    exists (String a b), c. simpl. now rewrite E.
Qed.

Lemma evenness_of_snoc (b : string) (c c' : ascii) :
  evenness_of (b ++ String c EmptyString) =
  evenness_of (b ++ String c' EmptyString).
Proof.
  unfold evenness_of. now rewrite !len_app_char.
Qed.

(** A cardinal step from a hash that has a last character. *)
Lemma neighbor_cardinal_snoc (fuel : nat) (d : Cardinal) (b : string) (c : ascii) :
  let ev := evenness_of (b ++ String c EmptyString) in
  getNeighborAsHashString (S fuel) (card d) (b ++ String c EmptyString) =
  (base1 <- (if negb (Js.indexOf (BORDER d ev) (String c EmptyString) =? -1)
             then getNeighborAsHashString fuel (card d) b
             else Some b) ;;
   Some (Js.add base1
           (Js.index BASE32
              (Js.indexOf (NEIGHBORS d ev) (String c EmptyString))))).
Proof.
  cbn [getNeighborAsHashString]. rewrite slice_last, substr0_parent.
  reflexivity.
Qed.

(** *** The empty hash *)

Lemma neighbor_cardinal_empty (fuel : nat) (d : Cardinal) :
  getNeighborAsHashString (S fuel) (card d) "" =
  (base1 <- getNeighborAsHashString fuel (card d) "" ;;
   Some (Js.add base1 (Js.index BASE32 (Js.indexOf (NEIGHBORS d even) "")))).
Proof.
  destruct d; reflexivity.
Qed.

(** The empty string is found at index 0 of every border table, so a call
    on the empty hash calls itself on the empty parent, at every depth. *)
Lemma neighbor_empty_none (fuel : nat) :
  forall direction, getNeighborAsHashString fuel direction "" = None.
Proof.
  induction fuel as [|fuel IH]; intros direction; [reflexivity|].
  destruct direction as [d| | | |].
  - rewrite neighbor_cardinal_empty, IH. reflexivity.
  - cbn [getNeighborAsHashString]. now rewrite IH.
  - cbn [getNeighborAsHashString]. now rewrite IH.
  - cbn [getNeighborAsHashString]. now rewrite IH.
  - cbn [getNeighborAsHashString]. now rewrite IH.
Qed.

(** The carry reaches the empty parent from every hash whose characters all
    lie on the border, such as the north of ["z"]. *)
Lemma neighbor_north_of_z_none (fuel : nat) :
  getNeighborAsHashString fuel (card dir_n) "z" = None.
Proof.
  destruct fuel as [|fuel]; [reflexivity|].
  pose proof (neighbor_cardinal_snoc fuel dir_n "" "z"%char) as H.
  cbn -[getNeighborAsHashString] in H. rewrite H.
  now rewrite neighbor_empty_none.
Qed.

(** C3.  The neighbour of the empty hash is never returned, at any depth of
    the stack and in any direction; nor is the neighbour to the north of
    ["z"], whose carry reaches the empty parent. *)
Theorem neighbor_of_empty_hash_never_returns (fuel : nat) (direction : Direction) :
  getNeighborAsHashString fuel direction "" = None /\
  getNeighborAsHashString fuel (card dir_n) "z" = None.
Proof.
  split; [apply neighbor_empty_none | apply neighbor_north_of_z_none].
Qed.

(** *** Characters outside the alphabet *)

Lemma tables_unknown (d : Cardinal) (ev : Evenness) (c : ascii) :
  in_alphabet c = false ->
  Js.indexOf (BORDER d ev) (String c EmptyString) = -1 /\
  Js.indexOf (NEIGHBORS d ev) (String c EmptyString) = -1.
Proof.
  destruct d, ev; destruct c as [[] [] [] [] [] [] [] []]; vm_compute;
    intros H; solve [split; reflexivity | discriminate H].
Qed.

Lemma neighbor_unknown_last (fuel : nat) (d : Cardinal) (b : string) (c : ascii) :
  in_alphabet c = false ->
  getNeighborAsHashString (S fuel) (card d) (b ++ String c EmptyString) =
  Some (b ++ "undefined").
Proof.
  intros H. rewrite neighbor_cardinal_snoc. cbv zeta.
  destruct (tables_unknown d (evenness_of (b ++ String c "")) c H) as [-> ->].
  reflexivity.
Qed.

(** C7.  No character is rejected.  For a hash with a character outside
    the alphabet, decoding returns the cell of the hash read with ['z'] in
    place of each such character; no neighbour lookup raises
    [InvalidHashCharacter]; and when the last character is outside the
    alphabet a cardinal step returns the parent followed by "undefined". *)
Theorem unknown_character_not_rejected (midpoint : Q -> Q -> Q) (h : string) :
  alphabet_valid h = false ->
  decode midpoint h =
    Some (normal (decodeGeohash midpoint (replace_unknown h))) /\
  (forall fuel direction,
     ~ fails_with (neighbor fuel direction h) InvalidHashCharacter) /\
  (forall fuel d b c,
     h = b ++ String c EmptyString ->
     in_alphabet c = false ->
     neighbor (S fuel) (card d) h = Some (normal (b ++ "undefined"))).
Proof.
  intros _. split; [|split].
  - unfold decode. now rewrite <- decodeGeohash_replace_unknown.
  - intros fuel direction. unfold fails_with, neighbor.
    destruct (getNeighborAsHashString fuel direction h); discriminate.
  - intros fuel d b c -> Hc. unfold neighbor.
    now rewrite neighbor_unknown_last.
Qed.

Lemma unknown_character_not_rejected_witness :
  decode exact_midpoint "dqa" =
    Some (normal (decodeGeohash exact_midpoint "dqz")) /\
  neighbor 1 (card dir_n) "dqa" = Some (normal "dqundefined").
Proof.
  destruct (unknown_character_not_rejected exact_midpoint "dqa")
    as (Hd & _ & Hn); [reflexivity|].
  split; [exact Hd|].
  apply (Hn 0%nat dir_n "dq" "a"%char); reflexivity.
Defined.

Lemma unknown_character_accepted :
  ~ fails_with (decode exact_midpoint "a") InvalidHashCharacter /\
  ~ fails_with (neighbor 1 (card dir_n) "a") InvalidHashCharacter.
Proof.
  unfold fails_with. split; vm_compute; discriminate.
Qed.

Example decode_a :
  decode exact_midpoint "a" =
    Some (normal (mkGeoCoordinate 45 135, mkGeoCoordinate 90 180,
                  mkGeoCoordinate (135 # 2) (315 # 2))) /\
  neighbor 1 (card dir_n) "a" = Some (normal "undefined").
Proof. split; reflexivity. Qed.

(** *** A step and the step back *)

Lemma in_alphabet_In (c : ascii) : in_alphabet c = true -> In c alphabet.
Proof.
  unfold in_alphabet. rewrite existsb_exists. intros (x & Hx & E).
  apply Ascii.eqb_eq in E. now subst.
Qed.

(** Within a parent cell the tables of opposite directions undo each other,
    and a character reached by a step without carry is not on the opposite
    border. *)
Lemma table_step_back (d : Cardinal) (ev : Evenness) (c : ascii) :
  In c alphabet ->
  Js.indexOf (BORDER d ev) (String c EmptyString) = -1 ->
  exists c',
    Js.index BASE32 (Js.indexOf (NEIGHBORS d ev) (String c EmptyString)) =
      Some (String c' EmptyString) /\
    Js.indexOf (BORDER (opposite d) ev) (String c' EmptyString) = -1 /\
    Js.index BASE32
      (Js.indexOf (NEIGHBORS (opposite d) ev) (String c' EmptyString)) =
      Some (String c EmptyString).
Proof.
  intros Hin. cbv in Hin.
  repeat (destruct Hin as [<-|Hin]; [|]); try contradiction;
    destruct d, ev; intros H; vm_compute in H; try discriminate H; clear H;
    (eexists; split; [reflexivity | split; reflexivity]).
Qed.

Lemma alphabet_valid_snoc (b : string) (c : ascii) :
  alphabet_valid (b ++ String c EmptyString) = true -> in_alphabet c = true.
Proof.
  unfold alphabet_valid. induction b as [|a b IH]; simpl.
  - now rewrite andb_true_r.
  - intros H. apply andb_true_iff in H. now apply IH.
Qed.

Lemma crosses_border_snoc (d : Cardinal) (b : string) (c : ascii) :
  crosses_border d (b ++ String c EmptyString) = false ->
  Js.indexOf (BORDER d (evenness_of (b ++ String c EmptyString)))
    (String c EmptyString) = -1.
Proof.
  unfold crosses_border. rewrite slice_last. intros H.
  apply negb_false_iff in H. now apply Z.eqb_eq.
Qed.

Lemma neighbor_inverse_cardinal (fuel : nat) (d : Cardinal) (h : string) :
  h <> EmptyString ->
  alphabet_valid h = true ->
  crosses_border d h = false ->
  exists h',
    getNeighborAsHashString (S fuel) (card d) h = Some h' /\
    crosses_border (opposite d) h' = false /\
    getNeighborAsHashString (S fuel) (card (opposite d)) h' = Some h.
Proof.
  intros Hne Hv Hb.
  destruct (string_snoc h Hne) as (b & c & ->).
  apply alphabet_valid_snoc, in_alphabet_In in Hv.
  apply crosses_border_snoc in Hb.
  destruct (table_step_back d _ c Hv Hb) as (c' & H1 & H2 & H3).
  exists (b ++ String c' EmptyString).
  rewrite !neighbor_cardinal_snoc. cbv zeta.
  unfold crosses_border. rewrite slice_last.
  rewrite (evenness_of_snoc b c' c).
  rewrite Hb, H1, H2, H3. repeat split.
Qed.

(** C8.  From a non-empty hash over the alphabet whose step north carries
    nothing into the parent, the step north returns a hash from which the
    step south returns the first; likewise east then west. *)
Theorem neighbor_inverse (fuel : nat) (h : string) :
  h <> EmptyString ->
  alphabet_valid h = true ->
  (crosses_border dir_n h = false ->
   exists h',
     getNeighborAsHashString (S fuel) (card dir_n) h = Some h' /\
     getNeighborAsHashString (S fuel) (card dir_s) h' = Some h) /\
  (crosses_border dir_e h = false ->
   exists h',
     getNeighborAsHashString (S fuel) (card dir_e) h = Some h' /\
     getNeighborAsHashString (S fuel) (card dir_w) h' = Some h).
Proof.
  intros Hne Hv. split; intros Hb.
  - destruct (neighbor_inverse_cardinal fuel dir_n h Hne Hv Hb)
      as (h' & H1 & _ & H2).
    exists h'. split; assumption.
  - destruct (neighbor_inverse_cardinal fuel dir_e h Hne Hv Hb)
      as (h' & H1 & _ & H2).
    exists h'. split; assumption.
Qed.

Lemma neighbor_inverse_dqcjqcps :
  (exists h',
     getNeighborAsHashString 1 (card dir_n) "dqcjqcps" = Some h' /\
     getNeighborAsHashString 1 (card dir_s) h' = Some "dqcjqcps") /\
  (exists h',
     getNeighborAsHashString 1 (card dir_e) "dqcjqcps" = Some h' /\
     getNeighborAsHashString 1 (card dir_w) h' = Some "dqcjqcps").
Proof.
  destruct (neighbor_inverse 0 "dqcjqcps") as [Hn He];
    [discriminate | reflexivity |].
  split; [apply Hn | apply He]; reflexivity.
Defined.

(** ** The radius search *)

(** C4.  Around ["0g"], with one row to the north and two columns to the
    west, the candidates are the row of the centre and one row south of it,
    whatever the extent to the south: the second loop runs to [searchNorth].
    With a south extent of 2 the second cell south of the centre, ["0c"],
    is not a candidate. *)
Theorem candidates_ignore_south_extent (searchSouth : nat) :
  let this := GeoHash_of_string exact_midpoint "0g" in
  option_map (map geohash)
    (candidateHashes exact_midpoint 3 this 1 searchSouth 2) =
    Some ["0g"; "0e"; "15"; "07"; "17"; "0f"; "0d"; "14"; "06"; "16"] /\
  getNeighborAsHashString 3 (card dir_s) "0g" = Some "0f" /\
  getNeighborAsHashString 3 (card dir_s) "0f" = Some "0c" /\
  ~ In "0c" ["0g"; "0e"; "15"; "07"; "17"; "0f"; "0d"; "14"; "06"; "16"].
Proof.
  split; [vm_compute; reflexivity|].
  split; [reflexivity|]. split; [reflexivity|].
  simpl. intros H.
  repeat (destruct H as [H|H]; [discriminate H|]). exact H.
Qed.

(** The south extent is not read by the construction of the candidates. *)
Lemma candidateHashes_south_extent_unused (midpoint : Q -> Q -> Q)
    (depth : nat) (this : GeoHash) (searchNorth south south' searchWest : nat) :
  candidateHashes midpoint depth this searchNorth south searchWest =
  candidateHashes midpoint depth this searchNorth south' searchWest.
Proof. reflexivity. Qed.

Section RadiusSearch.

Variable midpoint : Q -> Q -> Q.
Variable sphereKm : GeoCoordinate -> GeoCoordinate -> option Q.

(** The loop of [countHashesUntilDistance] only counts up. *)
Lemma count_loop_ge (depth fuel : nat) (this : GeoHash) (distance : Q)
    (direction : Cardinal) (points : nat) :
  forall hash counter pointsInScope r,
    count_loop midpoint sphereKm depth fuel this distance direction points
      hash counter pointsInScope = Some r ->
    (counter <= r)%nat.
Proof.
  induction fuel as [|fuel IH]; intros hash counter pis r; simpl.
  - destruct (points <=? pis)%nat; [discriminate|].
    intros [= ->]. lia.
  - destruct (points <=? pis)%nat.
    + destruct (getNeighborAsHashString depth (card direction) hash) as [h1|];
        [|discriminate].
      intros H. apply IH in H. lia.
    + intros [= ->]. lia.
Qed.

(** It is entered at least once when [points] is at most 5. *)
Lemma countHashesUntilDistance_positive (fuel : nat) (this : GeoHash)
    (distance : Q) (direction : Cardinal) (points r : nat) :
  (points <= 5)%nat ->
  countHashesUntilDistance midpoint sphereKm fuel this distance direction
    points = Some r ->
  (1 <= r)%nat.
Proof.
  intros Hp. unfold countHashesUntilDistance.
  destruct fuel as [|fuel]; cbn [count_loop];
    replace (points <=? 5)%nat with true by (symmetry; apply Nat.leb_le; lia).
  - discriminate.
  - destruct (getNeighborAsHashString (S fuel) (card direction) (geohash this));
      [|discriminate].
    apply count_loop_ge.
Qed.

(** The loops of the grid only push. *)
Lemma row_loop_keeps (depth : nat) (x : GeoHash) (n : nat) :
  forall w e hashes r,
    row_loop midpoint depth n w e hashes = Some r ->
    In x hashes -> In x r.
Proof.
  induction n as [|n IH]; intros w e hashes r; simpl.
  - now intros [= ->].
  - destruct (getNeighborAsHashString depth (card dir_w) w); [|discriminate].
    destruct (getNeighborAsHashString depth (card dir_e) e); [|discriminate].
    intros H Hin. apply (IH _ _ _ _ H). apply in_or_app. now left.
Qed.

Lemma rows_loop_keeps (depth : nat) (direction : Direction) (x : GeoHash)
    (searchWest : nat) (rows : nat) :
  forall currentRow hashes r,
    rows_loop midpoint depth direction rows searchWest currentRow hashes
      = Some r ->
    In x hashes -> In x r.
Proof.
  induction rows as [|n IH]; intros row hashes r; simpl.
  - now intros [= ->].
  - destruct (row_loop midpoint depth searchWest row row
                (hashes ++ [GeoHash_of_string midpoint row])) as [h1|] eqn:E;
      [|discriminate].
    destruct (getNeighborAsHashString depth direction row); [|discriminate].
    intros H Hin. apply (IH _ _ _ H).
    apply (row_loop_keeps _ _ _ _ _ _ _ E). apply in_or_app. now left.
Qed.

(** With a row to the north, the cell of the centre is a candidate. *)
Lemma candidateHashes_centre (depth : nat) (this : GeoHash)
    (searchNorth searchSouth searchWest : nat) (r : list GeoHash) :
  (1 <= searchNorth)%nat ->
  candidateHashes midpoint depth this searchNorth searchSouth searchWest
    = Some r ->
  In (GeoHash_of_string midpoint (geohash this)) r.
Proof.
  intros Hn. unfold candidateHashes.
  destruct searchNorth as [|n]; [lia|].
  destruct (rows_loop midpoint depth (card dir_n) (S n) searchWest
              (geohash this) []) as [h1|] eqn:E; [|discriminate].
  destruct (getNeighborAsHashString depth (card dir_s) (geohash this));
    [|discriminate].
  intros H. apply (rows_loop_keeps _ _ _ _ _ _ _ _ H).
  simpl in E.
  destruct (row_loop midpoint depth searchWest (geohash this) (geohash this)
              [GeoHash_of_string midpoint (geohash this)]) as [h2|] eqn:E2;
    [|discriminate].
  destruct (getNeighborAsHashString depth (card dir_n) (geohash this));
    [|discriminate].
  apply (rows_loop_keeps _ _ _ _ _ _ _ _ E).
  apply (row_loop_keeps _ _ _ _ _ _ _ E2). now left.
Qed.

Lemma geohash_of_string (h : string) :
  geohash (GeoHash_of_string midpoint h) = h.
Proof.
  unfold GeoHash_of_string.
  now destruct (decodeGeohash midpoint h) as [[nw se] ctr].
Qed.

Lemma constructed_centroid (this : GeoHash) :
  constructed midpoint this ->
  centroid (GeoHash_of_string midpoint (geohash this)) = centroid this.
Proof.
  intros [h|c p g H].
  - now rewrite geohash_of_string.
  - unfold GeoHash_of_coordinate in H. revert H.
    destruct (hashString midpoint c p) as [hash|]; [|discriminate].
    destruct (decodeGeohash midpoint hash) as [[nw se] ctr] eqn:E.
    intros [= <-]. cbn [geohash centroid]. unfold GeoHash_of_string.
    now rewrite E.
Qed.

Lemma distanceTo_self (a : GeoCoordinate) :
  distanceTo sphereKm a a = Some 0%Q.
Proof.
  unfold distanceTo.
  now rewrite (proj2 (Qeq_bool_iff _ _) (Qeq_refl (lat a))),
              (proj2 (Qeq_bool_iff _ _) (Qeq_refl (long a))).
Qed.

Lemma filter_length_positive {A : Type} (f : A -> bool) (l : list A) (x : A) :
  In x l -> f x = true -> (1 <= List.length (filter f l))%nat.
Proof.
  induction l as [|a l IH]; simpl; [contradiction|].
  intros [->|Hin] Hf.
  - rewrite Hf. simpl. lia.
  - destruct (f a); simpl; [lia | now apply IH].
Qed.

(** The centre of a cell is in range of itself at every distance that is
    not negative. *)
Lemma pointsInRange_own_centre (this : GeoHash) (distance : Q) :
  constructed midpoint this ->
  (0 <= distance)%Q ->
  (1 <= pointsInRange sphereKm (centroid this) distance
          (GeoHash_of_string midpoint (geohash this)))%nat.
Proof.
  intros Hc Hd. unfold pointsInRange.
  apply (filter_length_positive _ _ (Some 0%Q)).
  - apply in_map_iff.
    exists (centroid (GeoHash_of_string midpoint (geohash this))). split.
    + rewrite (constructed_centroid this Hc). apply distanceTo_self.
    + unfold getAllCoordinates. simpl. auto 6.
  - simpl. now apply Qle_bool_iff.
Qed.

End RadiusSearch.

(** C5.  When a search returns, at a distance that is not negative and for
    1 to 5 points asked for, the list it returns holds the hash of the centre
    if one point is asked for or, more generally, if at least the number of
    points asked for of the five points of the centre cell are in range of
    its centre. *)
Theorem centre_within_radius (midpoint : Q -> Q -> Q)
    (sphereKm : GeoCoordinate -> GeoCoordinate -> option Q)
    (fuel : nat) (this : GeoHash) (distance : Q) (points : nat)
    (l : list string) :
  constructed midpoint this ->
  (0 <= distance)%Q ->
  (1 <= points <= 5)%nat ->
  (points = 1%nat \/
   (points <= pointsInRange sphereKm (centroid this) distance
                (GeoHash_of_string midpoint (geohash this)))%nat) ->
  getAllHashStringsWithinRadius midpoint sphereKm fuel this distance points
    = Some l ->
  In (geohash this) l.
Proof.
  intros Hc Hd Hp Hown.
  assert (Hin : (points <= pointsInRange sphereKm (centroid this) distance
                             (GeoHash_of_string midpoint (geohash this)))%nat).
  { destruct Hown as [->|H]; [|exact H].
    now apply pointsInRange_own_centre. }
  clear Hown. unfold getAllHashStringsWithinRadius.
  destruct (countHashesUntilDistance midpoint sphereKm fuel this distance
              dir_n points) as [n|] eqn:En; [|discriminate].
  destruct (countHashesUntilDistance midpoint sphereKm fuel this distance
              dir_s points) as [s|]; [|discriminate].
  destruct (countHashesUntilDistance midpoint sphereKm fuel this distance
              dir_w points) as [w|]; [|discriminate].
  destruct (candidateHashes midpoint fuel this n s w) as [hashes|] eqn:Eh;
    [|discriminate].
  intros [= <-].
  apply countHashesUntilDistance_positive in En; [|lia].
  apply (candidateHashes_centre midpoint) in Eh; [|exact En].
  rewrite <- (geohash_of_string midpoint (geohash this)) at 1.
  apply in_map, filter_In. split; [exact Eh|].
  now apply Nat.leb_le.
Qed.

Lemma centre_within_radius_dqcjqcps :
  In "dqcjqcps"
    ["dqcjqcps"; "dqcjqcpk"; "dqcjqcpu"; "dqcjqcpt"; "dqcjqcpm";
     "dqcjqcpv"; "dqcjqcpe"; "dqcjqcp7"; "dqcjqcpg"].
Proof.
  apply (centre_within_radius exact_midpoint gridKm 9
           (GeoHash_of_string exact_midpoint "dqcjqcps") (3 # 100) 1).
  - constructor.
  - vm_compute. discriminate.
  - lia.
  - left. reflexivity.
  - vm_compute. reflexivity.
Defined.

(** With two points asked for and distance 0, only the centre of the centre
    cell is in range of itself, and the cell is filtered out. *)
Lemma centre_filtered_out :
  exists l,
    getAllHashStringsWithinRadius exact_midpoint gridKm 9
      (GeoHash_of_string exact_midpoint "dqcjqcps") 0 2 = Some l /\
    ~ In "dqcjqcps" l.
Proof.
  exists []. split; [vm_compute; reflexivity | intros []].
Qed.

(** The search does not return from every centre: from a cell on the
    northern edge of the globe the first probe steps north of ["z"]. *)
Lemma search_from_z_never_returns (midpoint : Q -> Q -> Q)
    (sphereKm : GeoCoordinate -> GeoCoordinate -> option Q)
    (fuel : nat) (distance : Q) (points : nat) :
  (points <= 5)%nat ->
  getAllHashStringsWithinRadius midpoint sphereKm fuel
    (GeoHash_of_string midpoint "z") distance points = None.
Proof.
  intros Hp. unfold getAllHashStringsWithinRadius, countHashesUntilDistance.
  rewrite geohash_of_string.
  destruct fuel as [|fuel]; cbn [count_loop];
    replace (points <=? 5)%nat with true by (symmetry; apply Nat.leb_le; lia).
  - reflexivity.
  - now rewrite neighbor_north_of_z_none.
Qed.

(** ** The fuel is only a bound

    A result obtained with some fuel is the result with any larger fuel:
    [Some r] is what the call returns. *)

Lemma neighbor_fuel_S (fuel : nat) :
  forall direction hash r,
    getNeighborAsHashString fuel direction hash = Some r ->
    getNeighborAsHashString (S fuel) direction hash = Some r.
Proof.
  induction fuel as [|fuel IH]; intros direction hash r H; [discriminate H|].
  cbn [getNeighborAsHashString] in H.
  remember (S fuel) as fuel1 eqn:Ef.
  cbn [getNeighborAsHashString].
  destruct direction as [d| | | |].
  - destruct (negb _).
    + destruct (getNeighborAsHashString fuel (card d) _) as [b1|] eqn:E;
        [|discriminate H].
      now rewrite (IH _ _ _ E).
    + exact H.
  - destruct (getNeighborAsHashString fuel (card dir_n) hash) as [b1|] eqn:E;
      [|discriminate H].
    rewrite (IH _ _ _ E). now apply IH.
  - destruct (getNeighborAsHashString fuel (card dir_n) hash) as [b1|] eqn:E;
      [|discriminate H].
    rewrite (IH _ _ _ E). now apply IH.
  - destruct (getNeighborAsHashString fuel (card dir_s) hash) as [b1|] eqn:E;
      [|discriminate H].
    rewrite (IH _ _ _ E). now apply IH.
  - destruct (getNeighborAsHashString fuel (card dir_s) hash) as [b1|] eqn:E;
      [|discriminate H].
    rewrite (IH _ _ _ E). now apply IH.
Qed.

Lemma neighbor_fuel_le (fuel fuel' : nat) (direction : Direction)
    (hash r : string) :
  (fuel <= fuel')%nat ->
  getNeighborAsHashString fuel direction hash = Some r ->
  getNeighborAsHashString fuel' direction hash = Some r.
Proof.
  induction 1 as [|m Hle IH]; intros H; [exact H|].
  now apply neighbor_fuel_S, IH.
Qed.

(** A cardinal step that returns does so within a depth of the length of
    the hash: each call of the carry drops one character, and the call on
    the empty parent does not return. *)
Lemma neighbor_depth_bound (fuel : nat) (d : Cardinal) :
  forall hash r,
    getNeighborAsHashString fuel (card d) hash = Some r ->
    getNeighborAsHashString (String.length hash) (card d) hash = Some r.
Proof.
  induction fuel as [|fuel IH]; intros hash r H; [discriminate H|].
  destruct hash as [|a hash'].
  - now rewrite neighbor_empty_none in H.
  - destruct (string_snoc (String a hash')) as (b & c & E); [discriminate|].
    rewrite E in *.
    replace (String.length (b ++ String c "")) with (S (String.length b))
      by (rewrite length_app; simpl; lia).
    rewrite neighbor_cardinal_snoc in *. cbv zeta in *.
    destruct (negb _).
    + destruct (getNeighborAsHashString fuel (card d) b) as [b1|] eqn:Eb;
        [|discriminate H].
      now rewrite (IH _ _ Eb).
    + exact H.
Qed.

Section SearchFuel.

Variable midpoint : Q -> Q -> Q.
Variable sphereKm : GeoCoordinate -> GeoCoordinate -> option Q.

Lemma count_loop_fuel_le (depth depth' : nat) (this : GeoHash)
    (distance : Q) (direction : Cardinal) (points : nat) :
  (depth <= depth')%nat ->
  forall fuel fuel' hash counter pointsInScope r,
    (fuel <= fuel')%nat ->
    count_loop midpoint sphereKm depth fuel this distance direction points
      hash counter pointsInScope = Some r ->
    count_loop midpoint sphereKm depth' fuel' this distance direction points
      hash counter pointsInScope = Some r.
Proof.
  intros Hd. induction fuel as [|fuel IH];
    intros fuel' hash counter pis r Hf H.
  - simpl in H. destruct fuel'; simpl;
      destruct (points <=? pis)%nat; solve [discriminate H | exact H].
  - destruct fuel' as [|fuel']; [lia|].
    simpl in H. simpl. destruct (points <=? pis)%nat; [|exact H].
    destruct (getNeighborAsHashString depth (card direction) hash) as [h1|]
      eqn:E; [|discriminate H].
    rewrite (neighbor_fuel_le _ _ _ _ _ Hd E).
    apply (IH fuel'); [lia | exact H].
Qed.

Lemma row_loop_fuel_le (depth depth' : nat) (n : nat) :
  (depth <= depth')%nat ->
  forall w e hashes r,
    row_loop midpoint depth n w e hashes = Some r ->
    row_loop midpoint depth' n w e hashes = Some r.
Proof.
  intros Hd. induction n as [|n IH]; intros w e hashes r H; simpl in *;
    [exact H|].
  destruct (getNeighborAsHashString depth (card dir_w) w) as [w1|] eqn:Ew;
    [|discriminate H].
  destruct (getNeighborAsHashString depth (card dir_e) e) as [e1|] eqn:Ee;
    [|discriminate H].
  rewrite (neighbor_fuel_le _ _ _ _ _ Hd Ew),
          (neighbor_fuel_le _ _ _ _ _ Hd Ee).
  now apply IH.
Qed.

Lemma rows_loop_fuel_le (depth depth' : nat) (direction : Direction)
    (searchWest rows : nat) :
  (depth <= depth')%nat ->
  forall currentRow hashes r,
    rows_loop midpoint depth direction rows searchWest currentRow hashes
      = Some r ->
    rows_loop midpoint depth' direction rows searchWest currentRow hashes
      = Some r.
Proof.
  intros Hd. induction rows as [|n IH]; intros row hashes r H; simpl in *;
    [exact H|].
  destruct (row_loop midpoint depth searchWest row row _) as [h1|] eqn:E1;
    [|discriminate H].
  rewrite (row_loop_fuel_le _ _ _ Hd _ _ _ _ E1).
  destruct (getNeighborAsHashString depth direction row) as [r1|] eqn:E2;
    [|discriminate H].
  rewrite (neighbor_fuel_le _ _ _ _ _ Hd E2).
  now apply IH.
Qed.

Lemma getAllHashStringsWithinRadius_fuel_le (fuel fuel' : nat)
    (this : GeoHash) (distance : Q) (points : nat) (l : list string) :
  (fuel <= fuel')%nat ->
  getAllHashStringsWithinRadius midpoint sphereKm fuel this distance points
    = Some l ->
  getAllHashStringsWithinRadius midpoint sphereKm fuel' this distance points
    = Some l.
Proof.
  intros Hf. unfold getAllHashStringsWithinRadius, countHashesUntilDistance.
  destruct (count_loop midpoint sphereKm fuel fuel this distance
              dir_n points (geohash this) 0 5) as [n|] eqn:En;
    [|discriminate].
  rewrite (count_loop_fuel_le _ _ _ _ _ _ Hf _ _ _ _ _ _ Hf En).
  destruct (count_loop midpoint sphereKm fuel fuel this distance
              dir_s points (geohash this) 0 5) as [s|] eqn:Es;
    [|discriminate].
  rewrite (count_loop_fuel_le _ _ _ _ _ _ Hf _ _ _ _ _ _ Hf Es).
  destruct (count_loop midpoint sphereKm fuel fuel this distance
              dir_w points (geohash this) 0 5) as [w|] eqn:Ew;
    [|discriminate].
  rewrite (count_loop_fuel_le _ _ _ _ _ _ Hf _ _ _ _ _ _ Hf Ew).
  unfold candidateHashes.
  destruct (rows_loop midpoint fuel (card dir_n) n w (geohash this) [])
    as [h1|] eqn:E1; [|discriminate].
  rewrite (rows_loop_fuel_le _ _ _ _ _ Hf _ _ _ E1).
  destruct (getNeighborAsHashString fuel (card dir_s) (geohash this))
    as [row|] eqn:E2; [|discriminate].
  rewrite (neighbor_fuel_le _ _ _ _ _ Hf E2).
  destruct (rows_loop midpoint fuel (card dir_s) n w row h1)
    as [h2|] eqn:E3; [|discriminate].
  rewrite (rows_loop_fuel_le _ _ _ _ _ Hf _ _ _ E3).
  trivial.
Qed.

End SearchFuel.

(** * Further properties of the codec *)

Lemma alphabet_valid_app (g1 g2 : string) :
  alphabet_valid (g1 ++ g2) = alphabet_valid g1 && alphabet_valid g2.
Proof.
  unfold alphabet_valid. induction g1 as [|a g1 IH]; simpl; [reflexivity|].
  now rewrite IH, andb_assoc.
Qed.

Section EncodeChars.

Variable midpoint : Q -> Q -> Q.
Variable c : GeoCoordinate.

(** Five turns from a character boundary append one character of the
    alphabet and lead to a character boundary. *)
Lemma five_steps_char (st : EncodeState) :
  e_bit st = 0%nat -> e_ch st = 0 ->
  let st5 := Nat.iter 5 (encode_step midpoint c) st in
  exists ch : ascii,
    e_geohash st5 = e_geohash st ++ String ch EmptyString /\
    in_alphabet ch = true /\
    e_bit st5 = 0%nat /\ e_ch st5 = 0 /\
    enc_view st5 = decode_char midpoint (enc_view st) ch.
Proof.
  intros Hb Hc. cbv zeta. rewrite iter_five, !encode_step_with.
  repeat match goal with
         | |- context [encode_bit midpoint c ?s] =>
             generalize (encode_bit midpoint c s); intro
         end.
  destruct st as [ie [la0 la1] [lo0 lo1] bit ch g]. simpl in Hb, Hc.
  subst bit ch.
  repeat match goal with b : bool |- _ => destruct b end;
    (eexists; split; [cbn; reflexivity | repeat split]).
Qed.

(** The state after [k] characters. *)
Lemma encode_chars_inv (k : nat) :
  let st := Nat.iter (5 * k) (encode_step midpoint c) encode_init in
  e_bit st = 0%nat /\ e_ch st = 0 /\
  String.length (e_geohash st) = k /\
  alphabet_valid (e_geohash st) = true /\
  decode_chars midpoint (e_geohash st) decode_init = enc_view st.
Proof.
  induction k as [|k IH]; cbv zeta.
  - repeat split.
  - replace (5 * S k)%nat with (5 + 5 * k)%nat by lia.
    rewrite Nat.iter_add.
    cbv zeta in IH. destruct IH as (Hb & Hc & Hl & Hv & Hd).
    destruct (five_steps_char _ Hb Hc) as (ch & Hg & Ha & Hb5 & Hc5 & Hv5).
    rewrite Hg. repeat split; try assumption.
    + rewrite length_app, Hl. simpl. lia.
    + rewrite alphabet_valid_app, Hv. unfold alphabet_valid. simpl.
      now rewrite Ha.
    + now rewrite decode_chars_app, Hd, Hv5.
Qed.

(** The hash only grows. *)
Lemma encode_chars_extend (k j : nat) :
  exists t,
    e_geohash (Nat.iter (5 * (k + j)) (encode_step midpoint c) encode_init) =
    e_geohash (Nat.iter (5 * k) (encode_step midpoint c) encode_init) ++ t.
Proof.
  induction j as [|j [t IH]].
  - exists EmptyString. rewrite Nat.add_0_r.
    generalize (e_geohash (Nat.iter (5 * k) (encode_step midpoint c) encode_init)).
    intros g. induction g as [|a g IHg]; simpl; [reflexivity | now rewrite <- IHg].
  - replace (5 * (k + S j))%nat with (5 + 5 * (k + j))%nat by lia.
    rewrite Nat.iter_add.
    destruct (encode_chars_inv (k + j)) as (Hb & Hc & _).
    destruct (five_steps_char _ Hb Hc) as (ch & Hg & _).
    rewrite Hg, IH. exists (t ++ String ch EmptyString).
    generalize (e_geohash (Nat.iter (5 * k) (encode_step midpoint c) encode_init)).
    intros g. induction g as [|a g IHg]; simpl; [reflexivity | now rewrite IHg].
Qed.

(** [hashString] returns the hash reached after [5 * precision] turns. *)
Lemma hashString_iter (precision : Z) :
  0 <= precision ->
  hashString midpoint c precision =
  Some (e_geohash (Nat.iter (5 * Z.to_nat precision)
                     (encode_step midpoint c) encode_init)).
Proof.
  intros Hp. unfold hashString.
  rewrite <- (Nat.add_0_r (5 * Z.to_nat precision)) at 1.
  rewrite encode_loop_steps.
  - destruct (encode_chars_inv (Z.to_nat precision)) as (_ & _ & Hl & _).
    destruct (Nat.iter _ _ _) as [ie la lo bit ch g] eqn:E. simpl in *.
    replace (Js.len g <? precision) with false; [reflexivity|].
    symmetry. apply Z.ltb_ge. unfold Js.len. lia.
  - intros i Hi.
    replace i with (i mod 5 + 5 * (i / 5))%nat
      by (rewrite Nat.add_comm; symmetry; apply Nat.div_mod_eq).
    rewrite Nat.iter_add.
    destruct (encode_chars_inv (i / 5)) as (Hb & _ & Hl & _).
    destruct (encode_steps_within_char midpoint c (i mod 5)
                (Nat.iter (5 * (i / 5)) (encode_step midpoint c) encode_init))
      as [G _]; [| exact Hb | rewrite G].
    + pose proof (Nat.mod_upper_bound i 5). lia.
    + unfold Js.len. rewrite Hl.
      assert (i / 5 < Z.to_nat precision)%nat
        by (apply Nat.Div0.div_lt_upper_bound; lia).
      lia.
Qed.

End EncodeChars.

(** X1.  For a precision that is not negative, [hashString] returns a hash
    of exactly that many characters, all of the alphabet, whatever the
    coordinate and the rounding of the midpoints. *)
Theorem hashString_length_alphabet (midpoint : Q -> Q -> Q)
    (c : GeoCoordinate) (precision : Z) :
  0 <= precision ->
  exists h,
    hashString midpoint c precision = Some h /\
    Js.len h = precision /\
    alphabet_valid h = true.
Proof.
  intros Hp. rewrite hashString_iter by exact Hp.
  destruct (encode_chars_inv midpoint c (Z.to_nat precision))
    as (_ & _ & Hl & Hv & _).
  eexists. split; [reflexivity|]. split; [|exact Hv].
  unfold Js.len. rewrite Hl. lia.
Qed.

Lemma hashString_length_alphabet_WhiteHouse :
  exists h,
    hashString exact_midpoint WhiteHouse 8 = Some h /\
    Js.len h = 8 /\
    alphabet_valid h = true.
Proof.
  apply (hashString_length_alphabet exact_midpoint WhiteHouse 8). lia.
Defined.

(** X2.  The hash of a coordinate at a precision is the beginning of its
    hash at every higher precision. *)
Theorem hashString_prefix (midpoint : Q -> Q -> Q) (c : GeoCoordinate)
    (p q : Z) :
  0 <= p -> p <= q ->
  exists hp t,
    hashString midpoint c p = Some hp /\
    hashString midpoint c q = Some (hp ++ t).
Proof.
  intros Hp Hq. rewrite !hashString_iter by lia.
  replace (Z.to_nat q) with (Z.to_nat p + Z.to_nat (q - p))%nat by lia.
  destruct (encode_chars_extend midpoint c (Z.to_nat p) (Z.to_nat (q - p)))
    as [t Ht].
  eexists. exists t. split; [reflexivity|]. now rewrite Ht.
Qed.

Lemma hashString_prefix_WhiteHouse :
  exists hp t,
    hashString exact_midpoint WhiteHouse 7 = Some hp /\
    hashString exact_midpoint WhiteHouse 8 = Some (hp ++ t).
Proof.
  apply (hashString_prefix exact_midpoint WhiteHouse 7 8); lia.
Defined.

(** ** Cells are nested *)

Lemma decode_state_eta (d : DecodeState) :
  mkDecodeState (d_is_even d) (d_lat d) (d_lon d) = d.
Proof. now destruct d. Qed.

Lemma exact_midpoint_le (a b : Q) :
  (a <= b)%Q -> (a <= exact_midpoint a b /\ exact_midpoint a b <= b)%Q.
Proof.
  intros H. unfold exact_midpoint. rewrite Qred_correct. split.
  - apply Qle_shift_div_l; lra.
  - apply Qle_shift_div_r; lra.
Qed.

Section Between.

Variable midpoint : Q -> Q -> Q.

(** The computed midpoint lies between the bounds; so does the rounded
    midpoint of doubles, rounding being monotone. *)
Hypothesis midpoint_between :
  forall a b, (a <= b)%Q -> (a <= midpoint a b /\ midpoint a b <= b)%Q.

Lemma decode_bit_within (cd : Z) (st : DecodeState) (mask : Z) :
  ordered_state st ->
  ordered_state (decode_bit midpoint cd st mask) /\
  state_within (decode_bit midpoint cd st mask) st.
Proof.
  intros [Hla Hlo].
  destruct (midpoint_between _ _ Hla) as [A1 A2].
  destruct (midpoint_between _ _ Hlo) as [B1 B2].
  unfold decode_bit, refine_interval, ordered_state, state_within.
  destruct (d_is_even st); destruct (negb _); simpl;
    repeat split; try assumption; apply Qle_refl.
Qed.

Lemma state_within_trans (s1 s2 s3 : DecodeState) :
  state_within s1 s2 -> state_within s2 s3 -> state_within s1 s3.
Proof.
  unfold state_within. intros [[A1 A2] [A3 A4]] [[B1 B2] [B3 B4]].
  repeat split; eapply Qle_trans; eassumption.
Qed.

Lemma state_within_refl (st : DecodeState) : state_within st st.
Proof. unfold state_within. repeat split; apply Qle_refl. Qed.

Lemma decode_bits_within (cd : Z) (masks : list Z) :
  forall st,
    ordered_state st ->
    ordered_state (fold_left (decode_bit midpoint cd) masks st) /\
    state_within (fold_left (decode_bit midpoint cd) masks st) st.
Proof.
  induction masks as [|m ms IH]; intros st H; simpl.
  - split; [exact H | apply state_within_refl].
  - destruct (decode_bit_within cd st m H) as [H1 H2].
    destruct (IH _ H1) as [H3 H4].
    split; [exact H3 | eapply state_within_trans; eassumption].
Qed.

Lemma decode_chars_within (h : string) :
  forall st,
    ordered_state st ->
    ordered_state (decode_chars midpoint h st) /\
    state_within (decode_chars midpoint h st) st.
Proof.
  induction h as [|a h IH]; intros st H; simpl.
  - split; [exact H | apply state_within_refl].
  - destruct (decode_bits_within (Js.indexOf BASE32 (String a "")) BITS st H)
      as [H1 H2].
    destruct (IH _ H1) as [H3 H4].
    split; [exact H3 | eapply state_within_trans; eassumption].
Qed.

Lemma decode_init_ordered : ordered_state decode_init.
Proof. split; simpl; lra. Qed.

Lemma decodeGeohash_app_within (h t : string) :
  cell_within (decodeGeohash midpoint (h ++ t)) (decodeGeohash midpoint h).
Proof.
  unfold cell_within, decodeGeohash. rewrite decode_chars_app.
  destruct (decode_chars_within h decode_init decode_init_ordered) as [H1 _].
  destruct (decode_chars_within t _ H1) as [_ H2].
  exact H2.
Qed.

(** *** The encoder follows the decoder on the points of the cell *)

Variable c : GeoCoordinate.

(** A point of the refined state is a point of the state, and the
    comparison of the encoder gives the bit that the decoder read. *)
Lemma decode_bit_holds_back (cd : Z) (st : DecodeState) (mask : Z) :
  ordered_state st ->
  state_holds (decode_bit midpoint cd st mask) c ->
  state_holds st c /\
  (if d_is_even st
   then Qgtb (long c) (midpoint (fst (d_lon st)) (snd (d_lon st)))
   else Qgtb (lat c) (midpoint (fst (d_lat st)) (snd (d_lat st))))
  = code_bit cd mask.
Proof.
  intros [Hla Hlo].
  destruct (midpoint_between _ _ Hla) as [A1 A2].
  destruct (midpoint_between _ _ Hlo) as [B1 B2].
  unfold decode_bit, refine_interval, state_holds, code_bit, Qgtb.
  destruct (d_is_even st); destruct (negb (Z.land cd mask =? 0)); simpl;
    intros [[C1 C2] [C3 C4]]; (split; [repeat split; try assumption|]).
  - eapply Qle_lt_trans; eassumption.
  - apply negb_true_iff. destruct (Qle_bool _ _) eqn:E; [|reflexivity].
    apply Qle_bool_iff in E. lra.
  - eapply Qle_trans; eassumption.
  - apply negb_false_iff. now apply Qle_bool_iff.
  - eapply Qle_lt_trans; eassumption.
  - apply negb_true_iff. destruct (Qle_bool _ _) eqn:E; [|reflexivity].
    apply Qle_bool_iff in E. lra.
  - eapply Qle_trans; eassumption.
  - apply negb_false_iff. now apply Qle_bool_iff.
Qed.

Lemma decode_bits_holds_back (cd : Z) (masks : list Z) :
  forall st,
    ordered_state st ->
    state_holds (fold_left (decode_bit midpoint cd) masks st) c ->
    state_holds st c.
Proof.
  induction masks as [|m ms IH]; intros st Ho H; simpl in H; [exact H|].
  destruct (decode_bit_within cd st m Ho) as [Ho1 _].
  apply (decode_bit_holds_back cd st m Ho). now apply IH.
Qed.

Lemma decode_chars_holds_back (h : string) :
  forall st,
    ordered_state st ->
    state_holds (decode_chars midpoint h st) c ->
    state_holds st c.
Proof.
  induction h as [|a h IH]; intros st Ho H; simpl in H; [exact H|].
  destruct (decode_bits_within (Js.indexOf BASE32 (String a "")) BITS st Ho)
    as [Ho1 _].
  apply (decode_bits_holds_back (Js.indexOf BASE32 (String a "")) BITS st Ho).
  now apply IH.
Qed.

(** A turn of the encoder on a point of the refined state. *)
Lemma encode_step_follows (cd mask : Z) (st : EncodeState) :
  ordered_state (enc_view st) ->
  state_holds (decode_bit midpoint cd (enc_view st) mask) c ->
  encode_step midpoint c st = step_with midpoint (code_bit cd mask) st /\
  enc_view (step_with midpoint (code_bit cd mask) st) =
    decode_bit midpoint cd (enc_view st) mask.
Proof.
  intros Ho H.
  destruct (decode_bit_holds_back cd _ mask Ho H) as [_ Hb].
  split.
  - rewrite encode_step_with. f_equal. exact Hb.
  - unfold step_with, decode_bit, refine_interval, enc_view, code_bit.
    simpl. destruct (e_is_even st), (negb (Z.land cd mask =? 0)),
      (e_bit st <? 4)%nat; reflexivity.
Qed.

Lemma encode_steps_follow (cd : Z) (masks : list Z) :
  forall st,
    ordered_state (enc_view st) ->
    state_holds (fold_left (decode_bit midpoint cd) masks (enc_view st)) c ->
    Nat.iter (List.length masks) (encode_step midpoint c) st =
    fold_left (fun s m => step_with midpoint (code_bit cd m) s) masks st.
Proof.
  induction masks as [|m ms IH]; intros st Ho H; [reflexivity|].
  simpl List.length. rewrite Nat.iter_succ_r. simpl fold_left in *.
  destruct (decode_bit_within cd (enc_view st) m Ho) as [Ho1 _].
  pose proof (decode_bits_holds_back cd ms _ Ho1 H) as H1.
  destruct (encode_step_follows cd m st Ho H1) as [E V].
  rewrite E. apply IH; rewrite V; assumption.
Qed.

(** The five turns that the bits of a character of the alphabet steer
    append that character. *)
Lemma five_steps_of_char (is_even : bool) (la lo : interval) (g : string)
    (a : ascii) :
  in_alphabet a = true ->
  let cd := Js.indexOf BASE32 (String a EmptyString) in
  let d := decode_char midpoint (mkDecodeState is_even la lo) a in
  fold_left (fun s m => step_with midpoint (code_bit cd m) s) BITS
    (mkEncodeState is_even la lo 0 0 g) =
  mkEncodeState (d_is_even d) (d_lat d) (d_lon d) 0 0
    (g ++ String a EmptyString).
Proof.
  intros Ha. apply in_alphabet_In in Ha. cbv in Ha.
  destruct la as [la0 la1], lo as [lo0 lo1].
  repeat (destruct Ha as [<-|Ha]; [destruct is_even; reflexivity|]).
  destruct Ha.
Qed.

Lemma encode_follows_decode (h : string) :
  forall st,
    e_bit st = 0%nat -> e_ch st = 0 ->
    alphabet_valid h = true ->
    ordered_state (enc_view st) ->
    state_holds (decode_chars midpoint h (enc_view st)) c ->
    e_geohash (Nat.iter (5 * String.length h) (encode_step midpoint c) st) =
    e_geohash st ++ h.
Proof.
  induction h as [|a h IH]; intros st Hb Hc Hv Ho H.
  - simpl. induction (e_geohash st) as [|x g IHg]; simpl;
      [reflexivity | now rewrite <- IHg].
  - simpl String.length.
    replace (5 * S (String.length h))%nat with (5 * String.length h + 5)%nat
      by lia.
    rewrite Nat.iter_add.
    unfold alphabet_valid in Hv. simpl in Hv. apply andb_true_iff in Hv.
    destruct Hv as [Ha Hv].
    simpl decode_chars in H.
    destruct (decode_bits_within (Js.indexOf BASE32 (String a "")) BITS _ Ho)
      as [Ho1 _].
    pose proof (decode_chars_holds_back h _ Ho1 H) as H1.
    pose proof (encode_steps_follow (Js.indexOf BASE32 (String a "")) BITS st
                  Ho H1) as E.
    change (List.length BITS) with 5%nat in E. rewrite E.
    destruct st as [ie la lo bit ch g]. simpl in Hb, Hc. subst bit ch.
    rewrite (five_steps_of_char ie la lo g a Ha).
    rewrite IH;
      [| reflexivity | reflexivity | exact Hv
       | unfold enc_view; cbn [e_is_even e_lat e_lon];
         rewrite decode_state_eta; exact Ho1
       | unfold enc_view; cbn [e_is_even e_lat e_lon];
         rewrite decode_state_eta; exact H].
    simpl e_geohash. clear. induction g as [|x g IHg]; simpl;
      [reflexivity | now rewrite IHg].
Qed.

End Between.

(** X3.  With exact midpoints the cell of a hash lies within the cell of
    each of its prefixes. *)
Theorem decode_prefix_cell (h t : string) :
  cell_within (decodeGeohash exact_midpoint (h ++ t))
    (decodeGeohash exact_midpoint h).
Proof.
  apply decodeGeohash_app_within. exact exact_midpoint_le.
Qed.

(** X4.  With exact midpoints, every point of the cell of a hash over the
    alphabet, the south and west edges excluded, has that hash at the
    precision of its length. *)
Theorem cell_points_encode (h : string) (c : GeoCoordinate) :
  alphabet_valid h = true ->
  in_half_open_cell (decodeGeohash exact_midpoint h) c ->
  hashString exact_midpoint c (Js.len h) = Some h.
Proof.
  intros Hv Hc. rewrite hashString_iter by (unfold Js.len; lia).
  unfold Js.len. rewrite Nat2Z.id.
  rewrite (encode_follows_decode exact_midpoint exact_midpoint_le c h);
    try reflexivity; try assumption.
  apply decode_init_ordered.
Qed.

Lemma cell_points_encode_WhiteHouse :
  hashString exact_midpoint WhiteHouse (Js.len "dqcjqcps") = Some "dqcjqcps".
Proof.
  apply (cell_points_encode "dqcjqcps" WhiteHouse).
  - reflexivity.
  - vm_compute. repeat split; try reflexivity; discriminate.
Defined.

(** The centre of the cell of a hash over the alphabet is encoded to that
    hash. *)
Lemma hashString_of_centre (h : string) :
  alphabet_valid h = true ->
  hashString exact_midpoint (coordinate (GeoHash_of_string exact_midpoint h))
    (Js.len h) = Some h.
Proof.
  intros Hv. rewrite hashString_iter by (unfold Js.len; lia).
  unfold Js.len. rewrite Nat2Z.id.
  rewrite (encode_follows_decode exact_midpoint exact_midpoint_le _ h);
    try reflexivity; try assumption; [apply decode_init_ordered|].
  assert (H : proper_state (decode_chars exact_midpoint h decode_init)).
  { apply decode_chars_proper. split; reflexivity. }
  destruct H as [Hla Hlo].
  destruct (exact_midpoint_between _ _ Hla) as [A1 A2].
  destruct (exact_midpoint_between _ _ Hlo) as [B1 B2].
  unfold GeoHash_of_string, decodeGeohash, state_holds. simpl.
  repeat split; try assumption; now apply Qlt_le_weak.
Qed.



(** ** The size of a cell *)

Lemma refine_interval_width (iv : interval) (cd mask : Z) :
  let iv' := refine_interval exact_midpoint iv cd mask in
  (snd iv' - fst iv' == (snd iv - fst iv) / 2)%Q.
Proof.
  cbv zeta. unfold refine_interval.
  destruct (negb _); cbn [fst snd]; unfold exact_midpoint;
    rewrite Qred_correct; field.
Qed.

Lemma half_size (w : Q) (e : Z) (total : Q) :
  0 <= e ->
  (w * inject_Z (2 ^ e) == total)%Q ->
  (w / 2 * inject_Z (2 ^ (e + 1)) == total)%Q.
Proof.
  intros He H. rewrite Z.pow_add_r by lia. rewrite inject_Z_mult, <- H.
  change (inject_Z (2 ^ 1)) with 2%Q. field.
Qed.

Lemma decode_bit_sized (cd : Z) (st : DecodeState) (mask : Z) (k : Z) :
  0 <= k ->
  sized_state st k ->
  sized_state (decode_bit exact_midpoint cd st mask) (k + 1).
Proof.
  intros Hk (He & Hw & Hh). unfold sized_state, decode_bit.
  rewrite Z.even_add. change (Z.even 1) with false.
  destruct (d_is_even st); rewrite <- He; simpl; (split; [reflexivity|]).
  - symmetry in He. apply Z.even_spec in He. destruct He as [j ->].
    replace ((2 * j + 1 + 1) / 2) with ((2 * j + 1) / 2 + 1)
      by (Z.to_euclidean_division_equations; lia).
    replace ((2 * j + 1) / 2) with (2 * j / 2) in *
      by (Z.to_euclidean_division_equations; lia).
    split; [|exact Hh].
    rewrite refine_interval_width. apply half_size; [|exact Hw].
    Z.to_euclidean_division_equations; lia.
  - assert (Ho : Z.odd k = true) by (rewrite <- Z.negb_even, <- He; reflexivity).
    apply Z.odd_spec in Ho. destruct Ho as [j ->].
    replace ((2 * j + 1 + 1 + 1) / 2) with ((2 * j + 1 + 1) / 2)
      by (Z.to_euclidean_division_equations; lia).
    replace ((2 * j + 1 + 1) / 2) with ((2 * j + 1) / 2 + 1) at 2
      by (Z.to_euclidean_division_equations; lia).
    split; [exact Hw|].
    rewrite refine_interval_width. apply half_size; [|exact Hh].
    Z.to_euclidean_division_equations; lia.
Qed.

Lemma decode_bits_sized (cd : Z) (masks : list Z) :
  forall st k,
    0 <= k ->
    sized_state st k ->
    sized_state (fold_left (decode_bit exact_midpoint cd) masks st)
      (k + Z.of_nat (List.length masks)).
Proof.
  induction masks as [|m ms IH]; intros st k Hk H; simpl fold_left.
  - simpl. now rewrite Z.add_0_r.
  - replace (k + Z.of_nat (List.length (m :: ms)))
      with (k + 1 + Z.of_nat (List.length ms)) by (simpl List.length; lia).
    apply IH; [lia|]. now apply decode_bit_sized.
Qed.

Lemma decode_chars_sized (h : string) :
  forall st k,
    0 <= k ->
    sized_state st k ->
    sized_state (decode_chars exact_midpoint h st) (k + 5 * Js.len h).
Proof.
  induction h as [|a h IH]; intros st k Hk H; simpl decode_chars.
  - unfold Js.len. simpl. now rewrite Z.add_0_r.
  - replace (k + 5 * Js.len (String a h)) with (k + 5 + 5 * Js.len h)
      by (unfold Js.len; simpl String.length; lia).
    apply IH; [lia|].
    apply (decode_bits_sized _ BITS st k Hk H).
Qed.


(** * Further properties of the neighbour resolver *)

Lemma snoc_inj (b1 b2 : string) (c1 c2 : ascii) :
  b1 ++ String c1 EmptyString = b2 ++ String c2 EmptyString ->
  b1 = b2 /\ c1 = c2.
Proof.
  revert b2. induction b1 as [|a b1 IH]; intros [|a2 b2]; simpl; intros H.
  - now injection H.
  - injection H as _ H. now destruct b2.
  - injection H as _ H. now destruct b1.
  - injection H as -> H. destruct (IH _ H) as [-> ->]. split; reflexivity.
Qed.

Lemma evenness_of_length (h1 h2 : string) :
  String.length h1 = String.length h2 -> evenness_of h1 = evenness_of h2.
Proof.
  unfold evenness_of, Js.len. now intros ->.
Qed.

(** A cardinal step from a hash that has a last character, by the tables. *)
Lemma neighbor_cardinal_tables (fuel : nat) (d : Cardinal) (b : string)
    (c : ascii) :
  let p := evenness_of (b ++ String c EmptyString) in
  getNeighborAsHashString (S fuel) (card d) (b ++ String c EmptyString) =
  (base1 <- (if on_border d p c
             then getNeighborAsHashString fuel (card d) b
             else Some b) ;;
   Some (Js.add base1 (table_char d p c))).
Proof. apply neighbor_cardinal_snoc. Qed.

(** The tables on the alphabet: the character reached is another character
    of the alphabet; the opposite table leads back, and carries exactly when
    the step carried. *)
Lemma table_char_alphabet (d : Cardinal) (p : Evenness) (c : ascii) :
  In c alphabet ->
  exists c',
    table_char d p c = Some (String c' EmptyString) /\
    in_alphabet c' = true /\ c' <> c /\
    on_border (opposite d) p c' = on_border d p c /\
    table_char (opposite d) p c' = Some (String c EmptyString).
Proof.
  intros Hin. cbv in Hin.
  repeat (destruct Hin as [<-|Hin]; [|]); try contradiction;
    destruct d, p;
    (eexists; split; [reflexivity | repeat split; discriminate]).
Qed.

(** A step across does not change what a step along the other axis does
    to the last character, and the two tables commute. *)
Lemma table_char_commute (d1 d2 : Cardinal) (p : Evenness) (c c1 c2 : ascii) :
  perpendicular d1 d2 = true ->
  In c alphabet ->
  table_char d1 p c = Some (String c1 EmptyString) ->
  table_char d2 p c = Some (String c2 EmptyString) ->
  on_border d2 p c1 = on_border d2 p c /\
  on_border d1 p c2 = on_border d1 p c /\
  table_char d2 p c1 = table_char d1 p c2.
Proof.
  intros Hp Hin. cbv in Hin.
  repeat (destruct Hin as [<-|Hin]; [|]); try contradiction;
    destruct d1, d2; try discriminate Hp; destruct p;
    intros H1 H2; vm_compute in H1, H2;
    injection H1 as <-; injection H2 as <-; repeat split.
Qed.

Lemma alphabet_valid_snoc_iff (b : string) (c : ascii) :
  alphabet_valid (b ++ String c EmptyString) = true <->
  alphabet_valid b = true /\ in_alphabet c = true.
Proof.
  rewrite alphabet_valid_app, andb_true_iff.
  unfold alphabet_valid at 2. simpl. now rewrite andb_true_r.
Qed.

(** On a hash over the alphabet a cardinal step that returns gives a hash
    over the alphabet, of the same length and with another last character. *)
Lemma neighbor_cardinal_valid (fuel : nat) (d : Cardinal) :
  forall h r,
    alphabet_valid h = true ->
    getNeighborAsHashString fuel (card d) h = Some r ->
    String.length r = String.length h /\ alphabet_valid r = true /\ r <> h.
Proof.
  induction fuel as [|fuel IH]; intros h r Hv H; [discriminate H|].
  destruct h as [|a h'].
  - now rewrite neighbor_empty_none in H.
  - destruct (string_snoc (String a h')) as (b & c & E); [discriminate|].
    rewrite E in *. apply alphabet_valid_snoc_iff in Hv. destruct Hv as [Hb Hc].
    rewrite neighbor_cardinal_tables in H. cbv zeta in H.
    destruct (table_char_alphabet d (evenness_of (b ++ String c "")) c
                (in_alphabet_In c Hc)) as (c' & Ht & Hc' & Hne & _).
    rewrite Ht in H. simpl Js.add in H.
    assert (Hlast : forall b1, b1 ++ String c' "" <> b ++ String c "").
    { intros b1 Heq. apply snoc_inj in Heq. now destruct Heq. }
    destruct (on_border _ _ _).
    + destruct (getNeighborAsHashString fuel (card d) b) as [b1|] eqn:Eb;
        [|discriminate H].
      injection H as <-. destruct (IH _ _ Hb Eb) as (Hl & Hv1 & _).
      rewrite !length_app, Hl. split; [reflexivity|]. split; [|apply Hlast].
      apply alphabet_valid_snoc_iff. now split.
    + injection H as <-. rewrite !length_app.
      split; [reflexivity|]. split; [|apply Hlast].
      apply alphabet_valid_snoc_iff. now split.
Qed.

Lemma neighbor_valid (fuel : nat) (direction : Direction) (h r : string) :
  alphabet_valid h = true ->
  getNeighborAsHashString fuel direction h = Some r ->
  String.length r = String.length h /\ alphabet_valid r = true.
Proof.
  intros Hv H.
  assert (Hcard : forall d x y, alphabet_valid x = true ->
            getNeighborAsHashString fuel (card d) x = Some y ->
            String.length y = String.length x /\ alphabet_valid y = true).
  { intros d x y Hx Hy.
    destruct (neighbor_cardinal_valid fuel d x y Hx Hy) as (A & B & _).
    now split. }
  assert (Hdiag : forall d1 d2,
            (b <- getNeighborAsHashString fuel (card d1) h ;;
             getNeighborAsHashString fuel (card d2) b) = Some r ->
            String.length r = String.length h /\ alphabet_valid r = true).
  { intros d1 d2 Hd.
    destruct (getNeighborAsHashString fuel (card d1) h) as [b|] eqn:E1;
      [|discriminate Hd].
    destruct (Hcard _ _ _ Hv E1) as [L1 V1].
    destruct (Hcard _ _ _ V1 Hd) as [L2 V2].
    split; [congruence | exact V2]. }
  destruct direction as [d| | | |].
  - now apply (Hcard d h r).
  - apply (Hdiag dir_n dir_w). apply neighbor_fuel_S in H.
    cbn [getNeighborAsHashString] in H. exact H.
  - apply (Hdiag dir_n dir_e). apply neighbor_fuel_S in H.
    cbn [getNeighborAsHashString] in H. exact H.
  - apply (Hdiag dir_s dir_e). apply neighbor_fuel_S in H.
    cbn [getNeighborAsHashString] in H. exact H.
  - apply (Hdiag dir_s dir_w). apply neighbor_fuel_S in H.
    cbn [getNeighborAsHashString] in H. exact H.
Qed.

(** X7.  On a hash over the alphabet, a neighbour lookup that returns, in
    any of the eight directions, returns a hash over the alphabet of the
    same length. *)
Theorem neighbor_keeps_length_alphabet (fuel : nat) (direction : Direction)
    (h r : string) :
  alphabet_valid h = true ->
  getNeighborAsHashString fuel direction h = Some r ->
  String.length r = String.length h /\ alphabet_valid r = true.
Proof.
  intros Hv H. now apply (neighbor_valid fuel direction h r).
Qed.

Lemma neighbor_keeps_length_alphabet_dqcjqcps :
  String.length "dqcjqcp7" = String.length "dqcjqcps" /\
  alphabet_valid "dqcjqcp7" = true.
Proof.
  apply (neighbor_keeps_length_alphabet 2 dir_sw "dqcjqcps" "dqcjqcp7");
    reflexivity.
Defined.

Lemma neighbor_back (fuel : nat) (d : Cardinal) :
  forall h r,
    alphabet_valid h = true ->
    getNeighborAsHashString fuel (card d) h = Some r ->
    getNeighborAsHashString fuel (card (opposite d)) r = Some h.
Proof.
  induction fuel as [|fuel IH]; intros h r Hv H; [discriminate H|].
  destruct h as [|a h'].
  - now rewrite neighbor_empty_none in H.
  - destruct (string_snoc (String a h')) as (b & c & E); [discriminate|].
    rewrite E in *. clear E a h'.
    apply alphabet_valid_snoc_iff in Hv. destruct Hv as [Hb Hc].
    rewrite neighbor_cardinal_tables in H. cbv zeta in H.
    destruct (table_char_alphabet d (evenness_of (b ++ String c "")) c
                (in_alphabet_In c Hc)) as (c' & Ht & _ & _ & Hbo & Hto).
    rewrite Ht in H. simpl Js.add in H.
    destruct (on_border d _ c) eqn:B.
    + destruct (getNeighborAsHashString fuel (card d) b) as [b1|] eqn:Eb;
        [|discriminate H].
      injection H as <-.
      destruct (neighbor_cardinal_valid fuel d b b1 Hb Eb) as (Hl & _ & _).
      rewrite neighbor_cardinal_tables. cbv zeta.
      rewrite (evenness_of_length (b1 ++ String c' "") (b ++ String c ""))
        by (rewrite !length_app, Hl; reflexivity).
      rewrite Hbo, Hto, (IH _ _ Hb Eb). reflexivity.
    + injection H as <-.
      rewrite neighbor_cardinal_tables. cbv zeta.
      rewrite (evenness_of_snoc b c' c), Hbo, Hto. reflexivity.
Qed.

(** X8.  On a hash over the alphabet, a cardinal step that returns is undone
    by the step in the opposite direction, also when the step carries into
    the parent cells. *)
Theorem neighbor_opposite_undoes (fuel : nat) (d : Cardinal) (h r : string) :
  alphabet_valid h = true ->
  getNeighborAsHashString fuel (card d) h = Some r ->
  getNeighborAsHashString fuel (card (opposite d)) r = Some h.
Proof.
  intros Hv H. now apply neighbor_back.
Qed.

Lemma neighbor_opposite_undoes_carry :
  getNeighborAsHashString 4 (card (opposite dir_n)) "cbpb" = Some "9zzz".
Proof.
  apply (neighbor_opposite_undoes 4 dir_n "9zzz" "cbpb"); reflexivity.
Defined.

(** Two steps along different axes, in either order. *)
Lemma neighbor_commute (fuel : nat) (d1 d2 : Cardinal) :
  perpendicular d1 d2 = true ->
  forall h,
    alphabet_valid h = true ->
    (b <- getNeighborAsHashString fuel (card d1) h ;;
     getNeighborAsHashString fuel (card d2) b) =
    (b <- getNeighborAsHashString fuel (card d2) h ;;
     getNeighborAsHashString fuel (card d1) b).
Proof.
  intros Hp. induction fuel as [|fuel IH]; intros h Hv; [reflexivity|].
  destruct h as [|a h'].
  - now rewrite !neighbor_empty_none.
  - destruct (string_snoc (String a h')) as (b & c & E); [discriminate|].
    rewrite E in *. clear E a h'.
    apply alphabet_valid_snoc_iff in Hv. destruct Hv as [Hb Hc].
    pose proof (in_alphabet_In c Hc) as Hin.
    set (p := evenness_of (b ++ String c "")).
    destruct (table_char_alphabet d1 p c Hin) as (c1 & Ht1 & Hc1 & _).
    destruct (table_char_alphabet d2 p c Hin) as (c2 & Ht2 & Hc2 & _).
    destruct (table_char_commute d1 d2 p c c1 c2 Hp Hin Ht1 Ht2)
      as (B21 & B12 & Ht).
    destruct (table_char_alphabet d2 p c1 (in_alphabet_In c1 Hc1))
      as (c3 & Ht3 & _).
    assert (Hstep : forall d b1 x,
              String.length b1 = String.length b ->
              getNeighborAsHashString (S fuel) (card d) (b1 ++ String x "") =
              (base1 <- (if on_border d p x
                         then getNeighborAsHashString fuel (card d) b1
                         else Some b1) ;;
               Some (Js.add base1 (table_char d p x)))).
    { intros d b1 x Hl. rewrite neighbor_cardinal_tables. cbv zeta.
      now rewrite (evenness_of_length (b1 ++ String x "") (b ++ String c ""))
        by (rewrite !length_app, Hl; reflexivity). }
    assert (Hlen : forall d b1,
              getNeighborAsHashString fuel (card d) b = Some b1 ->
              String.length b1 = String.length b).
    { intros d b1 Hb1.
      now destruct (neighbor_cardinal_valid fuel d b b1 Hb Hb1). }
    rewrite (Hstep d1 b c eq_refl), (Hstep d2 b c eq_refl), Ht1, Ht2.
    simpl Js.add. specialize (IH b Hb).
    destruct (on_border d1 p c) eqn:B1, (on_border d2 p c) eqn:B2.
    + destruct (getNeighborAsHashString fuel (card d1) b) as [x|] eqn:E1,
               (getNeighborAsHashString fuel (card d2) b) as [y|] eqn:E2.
      * rewrite (Hstep d2 x c1 (Hlen _ _ E1)), (Hstep d1 y c2 (Hlen _ _ E2)).
        rewrite B21, B12, <- Ht, Ht3, IH. reflexivity.
      * rewrite (Hstep d2 x c1 (Hlen _ _ E1)), B21, IH. reflexivity.
      * rewrite (Hstep d1 y c2 (Hlen _ _ E2)), B12, <- IH. reflexivity.
      * reflexivity.
    + rewrite (Hstep d1 b c2 eq_refl), B12.
      destruct (getNeighborAsHashString fuel (card d1) b) as [x|] eqn:E1;
        [|reflexivity].
      rewrite (Hstep d2 x c1 (Hlen _ _ E1)), B21, <- Ht, Ht3. reflexivity.
    + rewrite (Hstep d2 b c1 eq_refl), B21.
      destruct (getNeighborAsHashString fuel (card d2) b) as [y|] eqn:E2;
        [|reflexivity].
      rewrite (Hstep d1 y c2 (Hlen _ _ E2)), B12, <- Ht, Ht3. reflexivity.
    + rewrite (Hstep d2 b c1 eq_refl), (Hstep d1 b c2 eq_refl).
      rewrite B21, B12, <- Ht, Ht3. reflexivity.
Qed.

(** X9.  On a hash over the alphabet, a step north or south and a step east
    or west give the same result in either order, at every depth of the
    stack: the diagonal neighbours do not depend on the order in which
    [getNeighborAsHashString] composes the two steps. *)
Theorem neighbor_steps_commute (fuel : nat) (d1 d2 : Cardinal) (h : string) :
  perpendicular d1 d2 = true ->
  alphabet_valid h = true ->
  (b <- getNeighborAsHashString fuel (card d1) h ;;
   getNeighborAsHashString fuel (card d2) b) =
  (b <- getNeighborAsHashString fuel (card d2) h ;;
   getNeighborAsHashString fuel (card d1) b).
Proof.
  intros Hp Hv. now apply neighbor_commute.
Qed.

Lemma neighbor_steps_commute_dqcjqcps :
  (b <- getNeighborAsHashString 1 (card dir_n) "dqcjqcps" ;;
   getNeighborAsHashString 1 (card dir_e) b) =
  (b <- getNeighborAsHashString 1 (card dir_e) "dqcjqcps" ;;
   getNeighborAsHashString 1 (card dir_n) b).
Proof.
  apply (neighbor_steps_commute 1 dir_n dir_e "dqcjqcps"); reflexivity.
Defined.

(** ** The cell of a neighbour *)

(** Linear arithmetic with halves, quarters and eighths. *)
Ltac lra_div :=
  unfold Qdiv in *;
  change (/ 2)%Q with (1 # 2)%Q in *;
  change (/ 4)%Q with (1 # 4)%Q in *;
  change (/ 8)%Q with (1 # 8)%Q in *;
  lra.

Lemma refine_interval_position (iv : interval) (cd mask : Z) :
  let iv' := refine_interval exact_midpoint iv cd mask in
  (fst iv' == fst iv + bit_weight cd mask 1 * ((snd iv - fst iv) / 2) /\
   snd iv' - fst iv' == (snd iv - fst iv) / 2)%Q.
Proof.
  cbv zeta. unfold refine_interval, bit_weight, code_bit.
  destruct (negb _); cbn [fst snd]; unfold exact_midpoint;
    rewrite Qred_correct; split; field.
Qed.

(** The cell of a character within the cell of its parent. *)
Lemma decode_char_position (D : DecodeState) (a : ascii) :
  let ie := d_is_even D in
  let cd := Js.indexOf BASE32 (String a EmptyString) in
  let D' := decode_char exact_midpoint D a in
  d_is_even D' = negb ie /\
  (fst (d_lat D') ==
     fst (d_lat D)
     + char_row ie cd * ((snd (d_lat D) - fst (d_lat D)) / char_rows ie) /\
   snd (d_lat D') - fst (d_lat D') ==
     (snd (d_lat D) - fst (d_lat D)) / char_rows ie)%Q /\
  (fst (d_lon D') ==
     fst (d_lon D)
     + char_col ie cd * ((snd (d_lon D) - fst (d_lon D)) / char_cols ie) /\
   snd (d_lon D') - fst (d_lon D') ==
     (snd (d_lon D) - fst (d_lon D)) / char_cols ie)%Q.
Proof.
  cbv zeta. unfold decode_char.
  generalize (Js.indexOf BASE32 (String a "")) as cd. intros cd.
  destruct D as [ie la lo].
  destruct ie;
    cbn [fold_left BITS decode_bit d_is_even d_lat d_lon negb
         char_row char_col char_rows char_cols].
  - destruct (refine_interval_position lo cd 16) as [A1 A2].
    destruct (refine_interval_position
                (refine_interval exact_midpoint lo cd 16) cd 4) as [B1 B2].
    destruct (refine_interval_position
                (refine_interval exact_midpoint
                   (refine_interval exact_midpoint lo cd 16) cd 4) cd 1)
      as [C1 C2].
    destruct (refine_interval_position la cd 8) as [E1 E2].
    destruct (refine_interval_position
                (refine_interval exact_midpoint la cd 8) cd 2) as [F1 F2].
    unfold bit_weight in *.
    destruct (code_bit cd 16), (code_bit cd 8), (code_bit cd 4),
      (code_bit cd 2), (code_bit cd 1);
      cbv iota in *; (split; [reflexivity|]); split; split; lra_div.
  - destruct (refine_interval_position la cd 16) as [A1 A2].
    destruct (refine_interval_position
                (refine_interval exact_midpoint la cd 16) cd 4) as [B1 B2].
    destruct (refine_interval_position
                (refine_interval exact_midpoint
                   (refine_interval exact_midpoint la cd 16) cd 4) cd 1)
      as [C1 C2].
    destruct (refine_interval_position lo cd 8) as [E1 E2].
    destruct (refine_interval_position
                (refine_interval exact_midpoint lo cd 8) cd 2) as [F1 F2].
    unfold bit_weight in *.
    destruct (code_bit cd 16), (code_bit cd 8), (code_bit cd 4),
      (code_bit cd 2), (code_bit cd 1);
      cbv iota in *; (split; [reflexivity|]); split; split; lra_div.
Qed.

Ltac compute_position H :=
  repeat match type of H with
         | context [char_row ?ie ?cd] =>
             let v := eval vm_compute in (char_row ie cd) in
             change (char_row ie cd) with v in H
         | context [char_col ?ie ?cd] =>
             let v := eval vm_compute in (char_col ie cd) in
             change (char_col ie cd) with v in H
         end;
  cbn [char_rows char_cols] in H.

(** The step of the tables on the last character, in the parent cell or,
    when the step carries, in the neighbour of the parent cell. *)
Lemma decode_char_offset (d : Cardinal) (D1 D2 : DecodeState) (c c' : ascii)
    (k : Q) :
  In c alphabet ->
  table_char d (parity_of (d_is_even D1)) c = Some (String c' EmptyString) ->
  k = (if on_border d (parity_of (d_is_even D1)) c then 1 else 0)%Q ->
  state_offset (k * cardinal_dy d) (k * cardinal_dx d) D1 D2 ->
  state_offset (cardinal_dy d) (cardinal_dx d)
    (decode_char exact_midpoint D1 c) (decode_char exact_midpoint D2 c').
Proof.
  intros Hin Ht Hk (Hie & [L1 L2] & [M1 M2]).
  pose proof (decode_char_position D1 c) as P1.
  pose proof (decode_char_position D2 c') as P2.
  cbv zeta in P1, P2. rewrite <- Hie in P2.
  destruct P1 as (P1e & P1lat & P1lon). destruct P2 as (P2e & P2lat & P2lon).
  unfold state_offset. rewrite P1e, P2e. split; [reflexivity|].
  revert Ht Hk P1lat P1lon P2lat P2lon. clear P1e P2e Hie.
  generalize (decode_char exact_midpoint D1 c) as R1.
  generalize (decode_char exact_midpoint D2 c') as R2.
  destruct D1 as [ie la1 lo1], D2 as [ie2 la2 lo2].
  cbn [d_is_even d_lat d_lon] in *. clear ie2.
  intros R2 R1. cbv in Hin.
  repeat (destruct Hin as [<-|Hin]; [|]); try contradiction;
    destruct d, ie; intros Ht Hk P1lat P1lon P2lat P2lon;
    vm_compute in Ht; injection Ht as <-;
    vm_compute in Hk; subst k;
    compute_position P1lat; compute_position P1lon;
    compute_position P2lat; compute_position P2lon;
    cbn [cardinal_dy cardinal_dx] in *;
    destruct P1lat, P1lon, P2lat, P2lon;
    unfold Qdiv in *;
    change (/ 4)%Q with (1 # 4)%Q in *; change (/ 8)%Q with (1 # 8)%Q in *;
    split; split; lra.
Qed.

Lemma decode_chars_parity (h : string) :
  forall st,
    d_is_even (decode_chars exact_midpoint h st) =
    xorb (d_is_even st) (Nat.odd (String.length h)).
Proof.
  induction h as [|a h IH]; intros st; simpl decode_chars.
  - simpl. now rewrite xorb_false_r.
  - rewrite IH. destruct (decode_char_position st a) as [-> _].
    simpl String.length. rewrite Nat.odd_succ, <- Nat.negb_odd.
    now destruct (d_is_even st), (Nat.odd (String.length h)).
Qed.

(** The table row of the last character follows the parity of the decoder
    after the parent. *)
Lemma evenness_of_snoc_parity (b : string) (c : ascii) :
  evenness_of (b ++ String c EmptyString) =
  parity_of (d_is_even (decode_chars exact_midpoint b decode_init)).
Proof.
  rewrite decode_chars_parity. unfold evenness_of.
  rewrite len_app_char. unfold Js.len. simpl d_is_even.
  destruct (Nat.odd (String.length b)) eqn:E.
  - apply Nat.odd_spec in E. destruct E as [j ->].
    replace ((Z.of_nat (2 * j + 1) + 1) mod 2 =? 0) with true; [reflexivity|].
    symmetry. apply Z.eqb_eq. Z.to_euclidean_division_equations. lia.
  - assert (Ev : Nat.even (String.length b) = true)
      by (rewrite <- Nat.negb_odd, E; reflexivity).
    apply Nat.even_spec in Ev. destruct Ev as [j ->].
    replace ((Z.of_nat (2 * j) + 1) mod 2 =? 0) with false; [reflexivity|].
    symmetry. apply Z.eqb_neq. Z.to_euclidean_division_equations. lia.
Qed.

Lemma state_offset_zero (st : DecodeState) (dy dx : Q) :
  state_offset (0 * dy) (0 * dx) st st.
Proof. unfold state_offset. repeat split; lra. Qed.

Lemma state_offset_one (dy dx : Q) (s1 s2 : DecodeState) :
  state_offset dy dx s1 s2 -> state_offset (1 * dy) (1 * dx) s1 s2.
Proof.
  unfold state_offset. intros (E & [A1 A2] & [B1 B2]).
  repeat split; try assumption.
  - now rewrite Qmult_1_l.
  - now rewrite Qmult_1_l.
Qed.

(** The cell of the hash that a cardinal step returns. *)
Lemma neighbor_cardinal_offset (fuel : nat) (d : Cardinal) :
  forall h r,
    alphabet_valid h = true ->
    getNeighborAsHashString fuel (card d) h = Some r ->
    state_offset (cardinal_dy d) (cardinal_dx d)
      (decode_chars exact_midpoint h decode_init)
      (decode_chars exact_midpoint r decode_init).
Proof.
  induction fuel as [|fuel IH]; intros h r Hv H; [discriminate H|].
  destruct h as [|a h'].
  - now rewrite neighbor_empty_none in H.
  - destruct (string_snoc (String a h')) as (b & c & E); [discriminate|].
    rewrite E in *. clear E a h'.
    apply alphabet_valid_snoc_iff in Hv. destruct Hv as [Hb Hc].
    pose proof (in_alphabet_In c Hc) as Hin.
    rewrite neighbor_cardinal_tables in H. cbv zeta in H.
    rewrite evenness_of_snoc_parity in H.
    destruct (table_char_alphabet d
                (parity_of (d_is_even (decode_chars exact_midpoint b decode_init)))
                c Hin) as (c' & Ht & _).
    rewrite Ht in H. simpl Js.add in H.
    destruct (on_border d _ c) eqn:B.
    + destruct (getNeighborAsHashString fuel (card d) b) as [b1|] eqn:Eb;
        [|discriminate H].
      injection H as <-. rewrite !decode_chars_app. simpl decode_chars.
      apply (decode_char_offset d _ _ c c' 1 Hin Ht).
      * now rewrite B.
      * apply state_offset_one. now apply IH.
    + injection H as <-. rewrite !decode_chars_app. simpl decode_chars.
      apply (decode_char_offset d _ _ c c' 0 Hin Ht).
      * now rewrite B.
      * apply state_offset_zero.
Qed.

Lemma neighbor_offset (fuel : nat) (direction : Direction) (h r : string) :
  alphabet_valid h = true ->
  getNeighborAsHashString fuel direction h = Some r ->
  state_offset (direction_dy direction) (direction_dx direction)
    (decode_chars exact_midpoint h decode_init)
    (decode_chars exact_midpoint r decode_init).
Proof.
  intros Hv H.
  assert (Hdiag : forall d1 d2,
            (b <- getNeighborAsHashString fuel (card d1) h ;;
             getNeighborAsHashString fuel (card d2) b) = Some r ->
            exists b,
              state_offset (cardinal_dy d1) (cardinal_dx d1)
                (decode_chars exact_midpoint h decode_init)
                (decode_chars exact_midpoint b decode_init) /\
              state_offset (cardinal_dy d2) (cardinal_dx d2)
                (decode_chars exact_midpoint b decode_init)
                (decode_chars exact_midpoint r decode_init)).
  { intros d1 d2 Hd.
    destruct (getNeighborAsHashString fuel (card d1) h) as [b|] eqn:E1;
      [|discriminate Hd].
    exists b. split; [now apply (neighbor_cardinal_offset fuel d1)|].
    apply (neighbor_cardinal_offset fuel d2); [|exact Hd].
    now destruct (neighbor_cardinal_valid fuel d1 h b Hv E1) as (_ & V & _). }
  destruct direction as [d| | | |].
  - now apply (neighbor_cardinal_offset fuel d).
  - apply neighbor_fuel_S in H. cbn [getNeighborAsHashString] in H.
    destruct (Hdiag dir_n dir_w H) as (b & (E1 & [A1 A2] & [A3 A4])
                                         & (E2 & [B1 B2] & [B3 B4])).
    cbn [cardinal_dy cardinal_dx] in *.
    unfold state_offset, direction_dy, direction_dx.
    split; [congruence|]. split; split; lra.
  - apply neighbor_fuel_S in H. cbn [getNeighborAsHashString] in H.
    destruct (Hdiag dir_n dir_e H) as (b & (E1 & [A1 A2] & [A3 A4])
                                         & (E2 & [B1 B2] & [B3 B4])).
    cbn [cardinal_dy cardinal_dx] in *.
    unfold state_offset, direction_dy, direction_dx.
    split; [congruence|]. split; split; lra.
  - apply neighbor_fuel_S in H. cbn [getNeighborAsHashString] in H.
    destruct (Hdiag dir_s dir_e H) as (b & (E1 & [A1 A2] & [A3 A4])
                                         & (E2 & [B1 B2] & [B3 B4])).
    cbn [cardinal_dy cardinal_dx] in *.
    unfold state_offset, direction_dy, direction_dx.
    split; [congruence|]. split; split; lra.
  - apply neighbor_fuel_S in H. cbn [getNeighborAsHashString] in H.
    destruct (Hdiag dir_s dir_w H) as (b & (E1 & [A1 A2] & [A3 A4])
                                         & (E2 & [B1 B2] & [B3 B4])).
    cbn [cardinal_dy cardinal_dx] in *.
    unfold state_offset, direction_dy, direction_dx.
    split; [congruence|]. split; split; lra.
Qed.





(** * Further properties of the radius search *)

Section SearchProperties.

Variable midpoint : Q -> Q -> Q.
Variable sphereKm : GeoCoordinate -> GeoCoordinate -> option Q.

(** A property of the objects built from the strings that satisfy [good],
    a set of strings closed under the cardinal steps, holds of every
    candidate. *)
Lemma row_loop_forall (good : string -> Prop) (P : GeoHash -> Prop)
    (depth : nat) :
  (forall d x y, good x ->
     getNeighborAsHashString depth (card d) x = Some y -> good y) ->
  (forall x, good x -> P (GeoHash_of_string midpoint x)) ->
  forall n w e hashes r,
    good w -> good e -> Forall P hashes ->
    row_loop midpoint depth n w e hashes = Some r ->
    Forall P r.
Proof.
  intros Hstep HP. induction n as [|n IH]; intros w e hashes r Hw He Hh; simpl.
  - now intros [= <-].
  - destruct (getNeighborAsHashString depth (card dir_w) w) as [w1|] eqn:Ew;
      [|discriminate].
    destruct (getNeighborAsHashString depth (card dir_e) e) as [e1|] eqn:Ee;
      [|discriminate].
    pose proof (Hstep _ _ _ Hw Ew) as Hw1.
    pose proof (Hstep _ _ _ He Ee) as He1.
    apply IH; try assumption.
    apply Forall_app. split; [exact Hh|].
    repeat constructor; now apply HP.
Qed.

Lemma rows_loop_forall (good : string -> Prop) (P : GeoHash -> Prop)
    (depth : nat) (d : Cardinal) (searchWest : nat) :
  (forall d x y, good x ->
     getNeighborAsHashString depth (card d) x = Some y -> good y) ->
  (forall x, good x -> P (GeoHash_of_string midpoint x)) ->
  forall rows currentRow hashes r,
    good currentRow -> Forall P hashes ->
    rows_loop midpoint depth (card d) rows searchWest currentRow hashes
      = Some r ->
    Forall P r.
Proof.
  intros Hstep HP. induction rows as [|n IH]; intros row hashes r Hr Hh; simpl.
  - now intros [= <-].
  - destruct (row_loop midpoint depth searchWest row row
                (hashes ++ [GeoHash_of_string midpoint row])) as [h1|] eqn:E1;
      [|discriminate].
    destruct (getNeighborAsHashString depth (card d) row) as [row1|] eqn:E2;
      [|discriminate].
    apply IH; [now apply (Hstep d row) |].
    apply (row_loop_forall good P depth Hstep HP _ _ _ _ _ Hr Hr) in E1;
      [exact E1|].
    apply Forall_app. split; [exact Hh|]. repeat constructor. now apply HP.
Qed.

Lemma candidateHashes_forall (good : string -> Prop) (P : GeoHash -> Prop)
    (depth : nat) (this : GeoHash) (n s w : nat) (r : list GeoHash) :
  (forall d x y, good x ->
     getNeighborAsHashString depth (card d) x = Some y -> good y) ->
  (forall x, good x -> P (GeoHash_of_string midpoint x)) ->
  good (geohash this) ->
  candidateHashes midpoint depth this n s w = Some r ->
  Forall P r.
Proof.
  intros Hstep HP Hg. unfold candidateHashes.
  destruct (rows_loop midpoint depth (card dir_n) n w (geohash this) [])
    as [h1|] eqn:E1; [|discriminate].
  destruct (getNeighborAsHashString depth (card dir_s) (geohash this))
    as [row|] eqn:E2; [|discriminate].
  intros E3.
  apply (rows_loop_forall good P depth dir_n w Hstep HP) in E1;
    [|exact Hg|constructor].
  apply (rows_loop_forall good P depth dir_s w Hstep HP) in E3;
    [exact E3 | now apply (Hstep dir_s (geohash this)) | exact E1].
Qed.

(** The search returns hashes of candidates that pass the filter. *)
Lemma search_results (fuel : nat) (this : GeoHash) (distance : Q)
    (points : nat) (l : list string) (P : GeoHash -> Prop)
    (good : string -> Prop) :
  (forall d x y, good x ->
     getNeighborAsHashString fuel (card d) x = Some y -> good y) ->
  (forall x, good x -> P (GeoHash_of_string midpoint x)) ->
  good (geohash this) ->
  getAllHashStringsWithinRadius midpoint sphereKm fuel this distance points
    = Some l ->
  forall r, In r l ->
    exists o, geohash o = r /\ P o /\
      (points <= pointsInRange sphereKm (centroid this) distance o)%nat.
Proof.
  intros Hstep HP Hg. unfold getAllHashStringsWithinRadius.
  destruct (countHashesUntilDistance midpoint sphereKm fuel this distance
              dir_n points) as [n|]; [|discriminate].
  destruct (countHashesUntilDistance midpoint sphereKm fuel this distance
              dir_s points) as [s|]; [|discriminate].
  destruct (countHashesUntilDistance midpoint sphereKm fuel this distance
              dir_w points) as [w|]; [|discriminate].
  destruct (candidateHashes midpoint fuel this n s w) as [hashes|] eqn:Eh;
    [|discriminate].
  intros [= <-] r Hin.
  apply in_map_iff in Hin. destruct Hin as (o & Ho & Hin).
  apply filter_In in Hin. destruct Hin as [Hin Hf].
  exists o. split; [exact Ho|]. split.
  - pose proof (candidateHashes_forall good P fuel this n s w hashes
                  Hstep HP Hg Eh) as HF.
    rewrite Forall_forall in HF. now apply HF.
  - now apply Nat.leb_le.
Qed.

End SearchProperties.

(** X12.  Every hash that the search returns passes the test of the filter:
    at least [points] of the five points of its cell are within the distance
    of the centre of the centre cell. *)
Theorem search_results_in_range (midpoint : Q -> Q -> Q)
    (sphereKm : GeoCoordinate -> GeoCoordinate -> option Q)
    (fuel : nat) (this : GeoHash) (distance : Q) (points : nat)
    (l : list string) (r : string) :
  getAllHashStringsWithinRadius midpoint sphereKm fuel this distance points
    = Some l ->
  In r l ->
  (points <= pointsInRange sphereKm (centroid this) distance
               (GeoHash_of_string midpoint r))%nat.
Proof.
  intros H Hin.
  destruct (search_results midpoint sphereKm fuel this distance points l
              (fun o => o = GeoHash_of_string midpoint (geohash o))
              (fun _ => True)
              (fun _ _ _ _ _ => I)
              (fun x _ => eq_sym (f_equal (GeoHash_of_string midpoint)
                                    (geohash_of_string midpoint x)))
              I H r Hin) as (o & Ho & HP & Hr).
  rewrite HP, Ho in Hr. exact Hr.
Qed.

Lemma search_results_in_range_dqcjqcpk :
  (1 <= pointsInRange gridKm
          (centroid (GeoHash_of_string exact_midpoint "dqcjqcps")) (3 # 100)
          (GeoHash_of_string exact_midpoint "dqcjqcpk"))%nat.
Proof.
  apply (search_results_in_range exact_midpoint gridKm 9
           (GeoHash_of_string exact_midpoint "dqcjqcps") (3 # 100) 1
           ["dqcjqcps"; "dqcjqcpk"; "dqcjqcpu"; "dqcjqcpt"; "dqcjqcpm";
            "dqcjqcpv"; "dqcjqcpe"; "dqcjqcp7"; "dqcjqcpg"] "dqcjqcpk").
  - vm_compute. reflexivity.
  - simpl. auto.
Defined.

(** X13.  From a centre whose hash is over the alphabet, every hash that
    the search returns is over the alphabet and has the length of the hash
    of the centre. *)
Theorem search_results_same_precision (midpoint : Q -> Q -> Q)
    (sphereKm : GeoCoordinate -> GeoCoordinate -> option Q)
    (fuel : nat) (this : GeoHash) (distance : Q) (points : nat)
    (l : list string) (r : string) :
  alphabet_valid (geohash this) = true ->
  getAllHashStringsWithinRadius midpoint sphereKm fuel this distance points
    = Some l ->
  In r l ->
  String.length r = String.length (geohash this) /\ alphabet_valid r = true.
Proof.
  intros Hv H Hin.
  assert (Hstep : forall d x y,
            String.length x = String.length (geohash this)
            /\ alphabet_valid x = true ->
            getNeighborAsHashString fuel (card d) x = Some y ->
            String.length y = String.length (geohash this)
            /\ alphabet_valid y = true).
  { intros d x y [Hl Hx] Hy.
    destruct (neighbor_cardinal_valid fuel d x y Hx Hy) as (A & B & _).
    split; [congruence | exact B]. }
  assert (HP : forall x,
            String.length x = String.length (geohash this)
            /\ alphabet_valid x = true ->
            String.length (geohash (GeoHash_of_string midpoint x))
              = String.length (geohash this)
            /\ alphabet_valid (geohash (GeoHash_of_string midpoint x)) = true).
  { intros x Hx. now rewrite geohash_of_string. }
  destruct (search_results midpoint sphereKm fuel this distance points l
              (fun o => String.length (geohash o) = String.length (geohash this)
                        /\ alphabet_valid (geohash o) = true)
              (fun x => String.length x = String.length (geohash this)
                        /\ alphabet_valid x = true)
              Hstep HP (conj eq_refl Hv) H r Hin) as (o & Ho & Hgood & _).
  now rewrite Ho in Hgood.
Qed.

Lemma search_results_same_precision_dqcjqcpk :
  String.length "dqcjqcpk" = String.length "dqcjqcps" /\
  alphabet_valid "dqcjqcpk" = true.
Proof.
  apply (search_results_same_precision exact_midpoint gridKm 9
           (GeoHash_of_string exact_midpoint "dqcjqcps") (3 # 100) 1
           ["dqcjqcps"; "dqcjqcpk"; "dqcjqcpu"; "dqcjqcpt"; "dqcjqcpm";
            "dqcjqcpv"; "dqcjqcpe"; "dqcjqcp7"; "dqcjqcpg"] "dqcjqcpk").
  - reflexivity.
  - vm_compute. reflexivity.
  - simpl. auto.
Defined.

Section ProbeAndGrid.

Variable midpoint : Q -> Q -> Q.
Variable sphereKm : GeoCoordinate -> GeoCoordinate -> option Q.

(** What the loop of [countHashesUntilDistance] has counted when it
    returns: the steps up to the first cell that is out of range. *)
Lemma count_loop_spec (depth : nat) (this : GeoHash) (distance : Q)
    (d : Cardinal) (points : nat) (fuel : nat) :
  forall hash counter pointsInScope r,
    count_loop midpoint sphereKm depth fuel this distance d points
      hash counter pointsInScope = Some r ->
    ((pointsInScope < points)%nat /\ r = counter) \/
    ((points <= pointsInScope)%nat /\
     exists j hj,
       r = (counter + S j)%nat /\
       walk depth d (S j) hash = Some hj /\
       (pointsInRange sphereKm (centroid this) distance
          (GeoHash_of_string midpoint hj) < points)%nat /\
       forall k hk,
         (1 <= k <= j)%nat ->
         walk depth d k hash = Some hk ->
         (points <= pointsInRange sphereKm (centroid this) distance
                      (GeoHash_of_string midpoint hk))%nat).
Proof.
  induction fuel as [|fuel IH]; intros hash counter pis r; cbn [count_loop].
  - destruct (Nat.leb_spec points pis); [discriminate|].
    intros [= <-]. left. now split.
  - destruct (Nat.leb_spec points pis) as [Hle|Hlt].
    + destruct (getNeighborAsHashString depth (card d) hash) as [h1|] eqn:E;
        [|discriminate].
      intros H. right. split; [exact Hle|].
      apply IH in H. destruct H as [[Hout ->]|(Hin & j & hj & -> & Hw & Hout & Hall)].
      * exists 0%nat, h1. split; [lia|]. split; [cbn [walk]; now rewrite E|].
        split; [exact Hout|]. intros k hk Hk. lia.
      * exists (S j), hj. split; [lia|].
        split; [change (walk depth d (S (S j)) hash)
                  with (h <- getNeighborAsHashString depth (card d) hash ;;
                        walk depth d (S j) h); now rewrite E|].
        split; [exact Hout|]. intros k hk Hk Hwk.
        destruct k as [|k]; [lia|]. cbn [walk] in Hwk. rewrite E in Hwk.
        destruct k as [|k].
        -- cbn [walk] in Hwk. injection Hwk as <-. exact Hin.
        -- apply (Hall (S k)); [lia | exact Hwk].
    + intros [= <-]. left. now split.
Qed.

Lemma row_loop_length (depth : nat) (n : nat) :
  forall w e hashes r,
    row_loop midpoint depth n w e hashes = Some r ->
    List.length r = (List.length hashes + 2 * n)%nat.
Proof.
  induction n as [|n IH]; intros w e hashes r; simpl.
  - intros [= <-]. lia.
  - destruct (getNeighborAsHashString depth (card dir_w) w); [|discriminate].
    destruct (getNeighborAsHashString depth (card dir_e) e); [|discriminate].
    intros H. apply IH in H. rewrite H, List.length_app. simpl. lia.
Qed.

Lemma rows_loop_length (depth : nat) (direction : Direction)
    (searchWest rows : nat) :
  forall currentRow hashes r,
    rows_loop midpoint depth direction rows searchWest currentRow hashes
      = Some r ->
    List.length r = (List.length hashes + rows * (1 + 2 * searchWest))%nat.
Proof.
  induction rows as [|n IH]; intros row hashes r; simpl.
  - intros [= <-]. lia.
  - destruct (row_loop midpoint depth searchWest row row _) as [h1|] eqn:E1;
      [|discriminate].
    destruct (getNeighborAsHashString depth direction row); [|discriminate].
    intros H. apply IH in H. apply row_loop_length in E1.
    rewrite H, E1, List.length_app. simpl. lia.
Qed.

End ProbeAndGrid.

(** X14.  When [countHashesUntilDistance] returns [n], for 1 to 5 points
    asked for, [n] is at least 1, the cell [n] steps away in the direction
    is the first that is out of range, and the cells between the centre and
    it are in range. *)
Theorem countHashesUntilDistance_first_out_of_range
    (midpoint : Q -> Q -> Q)
    (sphereKm : GeoCoordinate -> GeoCoordinate -> option Q)
    (fuel : nat) (this : GeoHash) (distance : Q) (d : Cardinal)
    (points n : nat) :
  (points <= 5)%nat ->
  countHashesUntilDistance midpoint sphereKm fuel this distance d points
    = Some n ->
  (1 <= n)%nat /\
  (exists hn,
     walk fuel d n (geohash this) = Some hn /\
     (pointsInRange sphereKm (centroid this) distance
        (GeoHash_of_string midpoint hn) < points)%nat) /\
  (forall k hk,
     (1 <= k < n)%nat ->
     walk fuel d k (geohash this) = Some hk ->
     (points <= pointsInRange sphereKm (centroid this) distance
                  (GeoHash_of_string midpoint hk))%nat).
Proof.
  intros Hp H. unfold countHashesUntilDistance in H.
  apply count_loop_spec in H.
  destruct H as [[Hout _]|(_ & j & hj & -> & Hw & Hout & Hall)]; [lia|].
  split; [lia|]. split.
  - exists hj. now split.
  - intros k hk Hk. apply Hall. lia.
Qed.

Lemma countHashesUntilDistance_first_out_of_range_dqcjqcps :
  (1 <= 2)%nat /\
  (exists hn,
     walk 9 dir_n 2 (geohash (GeoHash_of_string exact_midpoint "dqcjqcps"))
       = Some hn /\
     (pointsInRange gridKm
        (centroid (GeoHash_of_string exact_midpoint "dqcjqcps")) (3 # 100)
        (GeoHash_of_string exact_midpoint hn) < 1)%nat) /\
  (forall k hk,
     (1 <= k < 2)%nat ->
     walk 9 dir_n k (geohash (GeoHash_of_string exact_midpoint "dqcjqcps"))
       = Some hk ->
     (1 <= pointsInRange gridKm
             (centroid (GeoHash_of_string exact_midpoint "dqcjqcps")) (3 # 100)
             (GeoHash_of_string exact_midpoint hk))%nat).
Proof.
  apply (countHashesUntilDistance_first_out_of_range exact_midpoint gridKm 9
           (GeoHash_of_string exact_midpoint "dqcjqcps") (3 # 100) dir_n 1 2).
  - lia.
  - vm_compute. reflexivity.
Defined.

(** X15.  When the construction of the candidates returns, it has built
    [2 * searchNorth] rows of [1 + 2 * searchWest] cells. *)
Theorem candidateHashes_count (midpoint : Q -> Q -> Q) (depth : nat)
    (this : GeoHash) (searchNorth searchSouth searchWest : nat)
    (hashes : list GeoHash) :
  candidateHashes midpoint depth this searchNorth searchSouth searchWest
    = Some hashes ->
  List.length hashes = (2 * searchNorth * (1 + 2 * searchWest))%nat.
Proof.
  unfold candidateHashes.
  destruct (rows_loop midpoint depth (card dir_n) searchNorth searchWest
              (geohash this) []) as [h1|] eqn:E1; [|discriminate].
  destruct (getNeighborAsHashString depth (card dir_s) (geohash this));
    [|discriminate].
  intros E2. apply rows_loop_length in E1, E2. rewrite E2, E1. simpl. lia.
Qed.

Lemma candidateHashes_count_0g :
  List.length
    (map (GeoHash_of_string exact_midpoint)
       ["0g"; "0e"; "15"; "07"; "17"; "0f"; "0d"; "14"; "06"; "16"])
  = (2 * 1 * (1 + 2 * 2))%nat.
Proof.
  apply (candidateHashes_count exact_midpoint 3
           (GeoHash_of_string exact_midpoint "0g") 1 2 2).
  vm_compute. reflexivity.
Defined.

(** * When a cardinal step returns *)

Lemma string_snoc_ind (P : string -> Prop) :
  P EmptyString ->
  (forall b c, P b -> P (b ++ String c EmptyString)) ->
  forall h, P h.
Proof.
  intros H0 Hs h. remember (String.length h) as n eqn:En.
  revert h En. induction n as [|n IH]; intros h En.
  - destruct h; [exact H0 | discriminate En].
  - destruct h as [|a h']; [discriminate En|].
    destruct (string_snoc (String a h')) as (b & c & E); [discriminate|].
    rewrite E in *. apply Hs, IH.
    rewrite length_app in En. simpl in En. lia.
Qed.

Lemma evenness_of_snoc_after (b : string) (c : ascii) :
  evenness_of (b ++ String c EmptyString) = evenness_after (String.length b).
Proof.
  unfold evenness_of, evenness_after. rewrite len_app_char. unfold Js.len.
  destruct (Nat.odd (String.length b)) eqn:E.
  - apply Nat.odd_spec in E. destruct E as [j ->].
    replace ((Z.of_nat (2 * j + 1) + 1) mod 2 =? 0) with true; [reflexivity|].
    symmetry. apply Z.eqb_eq. Z.to_euclidean_division_equations. lia.
  - assert (Ev : Nat.even (String.length b) = true)
      by (rewrite <- Nat.negb_odd, E; reflexivity).
    apply Nat.even_spec in Ev. destruct Ev as [j ->].
    replace ((Z.of_nat (2 * j) + 1) mod 2 =? 0) with false; [reflexivity|].
    symmetry. apply Z.eqb_neq. Z.to_euclidean_division_equations. lia.
Qed.

Lemma border_run_snoc (d : Cardinal) (b : string) (c : ascii) :
  forall pos,
    border_run d pos (b ++ String c EmptyString) =
    border_run d pos b
    && on_border d (evenness_after (pos + String.length b)) c.
Proof.
  induction b as [|a b IH]; intros pos; simpl.
  - now rewrite Nat.add_0_r, andb_true_r.
  - rewrite IH, andb_assoc. now rewrite Nat.add_succ_r.
Qed.

Lemma neighbor_returns_iff (d : Cardinal) (h : string) :
  (all_on_border d h = true ->
   forall fuel, getNeighborAsHashString fuel (card d) h = None) /\
  (all_on_border d h = false ->
   exists r, getNeighborAsHashString (String.length h) (card d) h = Some r).
Proof.
  induction h as [|b c [IH1 IH2]] using string_snoc_ind.
  - split; [intros _ fuel; apply neighbor_empty_none | discriminate].
  - unfold all_on_border in *. rewrite border_run_snoc. simpl Nat.add.
    rewrite length_app. simpl String.length.
    replace (String.length b + 1)%nat with (S (String.length b)) by lia.
    split.
    + intros H fuel. apply andb_true_iff in H. destruct H as [Hb Hc].
      destruct fuel as [|fuel]; [reflexivity|].
      rewrite neighbor_cardinal_tables. cbv zeta.
      rewrite evenness_of_snoc_after, Hc, (IH1 Hb fuel). reflexivity.
    + intros H. rewrite neighbor_cardinal_tables. cbv zeta.
      rewrite evenness_of_snoc_after.
      destruct (on_border d _ c) eqn:Hc.
      * rewrite andb_true_r in H. destruct (IH2 H) as [r ->].
        eexists. reflexivity.
      * eexists. reflexivity.
Qed.

(** X16.  A cardinal step from a hash returns exactly when some character
    of the hash is off the border of the direction in its table row; a stack
    of the length of the hash is then enough, and no stack is enough
    otherwise. *)
Theorem neighbor_returns_off_border (d : Cardinal) (h : string) :
  (all_on_border d h = false <->
   exists fuel r, getNeighborAsHashString fuel (card d) h = Some r) /\
  (all_on_border d h = false <->
   exists r, getNeighborAsHashString (String.length h) (card d) h = Some r).
Proof.
  destruct (neighbor_returns_iff d h) as [H1 H2].
  assert (H3 : (exists fuel r,
                  getNeighborAsHashString fuel (card d) h = Some r) ->
               all_on_border d h = false).
  { intros (fuel & r & Hr). destruct (all_on_border d h) eqn:E; [|reflexivity].
    rewrite (H1 eq_refl fuel) in Hr. discriminate Hr. }
  split; split.
  - intros E. destruct (H2 E) as [r Hr]. now exists (String.length h), r.
  - exact H3.
  - exact H2.
  - intros [r Hr]. apply H3. now exists (String.length h), r.
Qed.

Lemma neighbor_returns_off_border_dqcjqcps :
  exists r,
    getNeighborAsHashString (String.length "dqcjqcps") (card dir_n) "dqcjqcps"
      = Some r.
Proof.
  apply (proj2 (neighbor_returns_off_border dir_n "dqcjqcps")). reflexivity.
Defined.

(** * The wrapping functions of Dms *)

Ltac wrap_cases :=
  repeat match goal with
         | |- context [Z.leb ?a ?b] => destruct (Z.leb_spec a b)
         | |- context [Z.ltb ?a ?b] => destruct (Z.ltb_spec a b)
         end;
  cbn [andb].

Example wrap_examples :
  Dms.wrap360 (-1) = 359 /\ Dms.wrap360 361 = 1 /\
  Dms.wrap180 (-181) = 179 /\ Dms.wrap180 181 = -179 /\
  Dms.wrap90 (-91) = -89 /\ Dms.wrap90 91 = 89.
Proof. repeat split. Qed.

(** X17.  [wrap360] maps every whole number of degrees into 0..359, a
    multiple of 360 away, and leaves 0..359 as they are. *)
Theorem wrap360_range (degrees : Z) :
  0 <= Dms.wrap360 degrees < 360 /\
  (exists q, Dms.wrap360 degrees = degrees + 360 * q) /\
  Dms.wrap360 (Dms.wrap360 degrees) = Dms.wrap360 degrees.
Proof.
  assert (R : 0 <= Dms.wrap360 degrees < 360).
  { unfold Dms.wrap360. wrap_cases; Z.to_euclidean_division_equations; lia. }
  split; [exact R|]. split.
  - unfold Dms.wrap360. wrap_cases; try (exists 0; lia);
      exists (1 - Z.quot degrees 360
              - Z.quot (Z.rem degrees 360 + 360) 360);
      Z.to_euclidean_division_equations; lia.
  - generalize dependent (Dms.wrap360 degrees). intros w Hw.
    unfold Dms.wrap360. wrap_cases; lia.
Qed.



(** X19.  [wrap90] leaves -90..90 as they are, and its result lies in
    -90..90 exactly when the remainder of the degrees by 360 is not below
    -270: at -315 degrees it returns 135. *)
Theorem wrap90_range (degrees : Z) :
  (-90 <= degrees <= 90 -> Dms.wrap90 degrees = degrees) /\
  (-90 <= Dms.wrap90 degrees <= 90 <-> -270 <= Z.rem degrees 360) /\
  Dms.wrap90 (-315) = 135.
Proof.
  unfold Dms.wrap90. split; [|split].
  - intros H. wrap_cases; lia.
  - wrap_cases; Z.to_euclidean_division_equations; lia.
  - reflexivity.
Qed.

Lemma wrap90_range_witness :
  Dms.wrap90 45 = 45 /\ -90 <= Dms.wrap90 100 <= 90.
Proof.
  split.
  - apply (proj1 (wrap90_range 45)). lia.
  - apply (proj2 (proj1 (proj2 (wrap90_range 100)))). vm_compute. discriminate.
Defined.

(** * The search at the edges of the globe *)

Section SearchAtEdge.

Variable midpoint : Q -> Q -> Q.
Variable sphereKm : GeoCoordinate -> GeoCoordinate -> option Q.

Lemma countHashesUntilDistance_edge (fuel : nat) (this : GeoHash)
    (distance : Q) (d : Cardinal) (points : nat) :
  (points <= 5)%nat ->
  all_on_border d (geohash this) = true ->
  countHashesUntilDistance midpoint sphereKm fuel this distance d points
    = None.
Proof.
  intros Hp He. unfold countHashesUntilDistance.
  destruct fuel as [|fuel]; cbn [count_loop];
    replace (points <=? 5)%nat with true by (symmetry; apply Nat.leb_le; lia).
  - reflexivity.
  - now rewrite (proj1 (neighbor_returns_iff d (geohash this)) He).
Qed.

Lemma candidateHashes_east_edge (depth : nat) (this : GeoHash)
    (searchNorth searchSouth searchWest : nat) :
  (1 <= searchNorth)%nat -> (1 <= searchWest)%nat ->
  all_on_border dir_e (geohash this) = true ->
  candidateHashes midpoint depth this searchNorth searchSouth searchWest
    = None.
Proof.
  intros Hn Hw He. unfold candidateHashes.
  destruct searchNorth as [|n]; [lia|]. destruct searchWest as [|w]; [lia|].
  cbn [rows_loop row_loop].
  rewrite (proj1 (neighbor_returns_iff dir_e (geohash this)) He).
  now destruct (getNeighborAsHashString depth (card dir_w) (geohash this)).
Qed.

End SearchAtEdge.

(** X20.  From a centre cell that touches an edge of the globe (all the
    characters of its hash on the border of one cardinal direction) the
    search never returns, whatever the distance, for 1 to 5 points asked
    for: a probe, or the first step east of the centre, steps off the
    globe. *)
Theorem search_never_returns_at_edge (midpoint : Q -> Q -> Q)
    (sphereKm : GeoCoordinate -> GeoCoordinate -> option Q)
    (fuel : nat) (this : GeoHash) (distance : Q) (points : nat)
    (d : Cardinal) :
  (points <= 5)%nat ->
  all_on_border d (geohash this) = true ->
  getAllHashStringsWithinRadius midpoint sphereKm fuel this distance points
    = None.
Proof.
  intros Hp He. unfold getAllHashStringsWithinRadius.
  destruct (countHashesUntilDistance midpoint sphereKm fuel this distance
              dir_n points) as [n|] eqn:En; [|reflexivity].
  destruct (countHashesUntilDistance midpoint sphereKm fuel this distance
              dir_s points) as [s|] eqn:Es; [|reflexivity].
  destruct (countHashesUntilDistance midpoint sphereKm fuel this distance
              dir_w points) as [w|] eqn:Ew; [|reflexivity].
  destruct d.
  - now rewrite countHashesUntilDistance_edge in En.
  - now rewrite countHashesUntilDistance_edge in Es.
  - apply countHashesUntilDistance_positive in En, Ew; try lia.
    now rewrite candidateHashes_east_edge.
  - now rewrite countHashesUntilDistance_edge in Ew.
Qed.

Lemma search_never_returns_at_edge_bp :
  getAllHashStringsWithinRadius exact_midpoint gridKm 50
    (GeoHash_of_string exact_midpoint "bp") 1000 1 = None.
Proof.
  apply (search_never_returns_at_edge exact_midpoint gridKm 50
           (GeoHash_of_string exact_midpoint "bp") 1000 1 dir_n).
  - lia.
  - reflexivity.
Defined.

(** * Different hashes, different cells *)

Lemma decode_size_length (h1 h2 : string) :
  decodeGeohash exact_midpoint h1 = decodeGeohash exact_midpoint h2 ->
  String.length h1 = String.length h2.
Proof.
  intros E.
  assert (S0 : sized_state decode_init 0) by (repeat split).
  pose proof (decode_chars_sized h1 _ 0 (Z.le_refl 0) S0) as (_ & W1 & H1).
  pose proof (decode_chars_sized h2 _ 0 (Z.le_refl 0) S0) as (_ & W2 & H2).
  unfold decodeGeohash in E. injection E as E1 E2 E3 E4 _ _.
  rewrite <- E2, <- E4 in W2. rewrite <- E1, <- E3 in H2.
  cbn [Z.add] in *.
  assert (Inj : forall w a b total,
            ~ (total == 0)%Q ->
            (w * inject_Z a == total)%Q -> (w * inject_Z b == total)%Q ->
            a = b).
  { intros w a b total Ht Ha Hb. apply inject_Z_injective.
    assert (Hw : ~ (w == 0)%Q).
    { intros Hw. rewrite Hw in Ha. apply Ht. rewrite <- Ha. ring. }
    rewrite <- Hb in Ha. apply Qmult_inj_l in Ha; assumption. }
  assert (N360 : ~ (360 == 0)%Q) by discriminate.
  assert (N180 : ~ (180 == 0)%Q) by discriminate.
  pose proof (Inj _ _ _ _ N360 W1 W2) as PW.
  pose proof (Inj _ _ _ _ N180 H1 H2) as PH.
  apply Z.pow_inj_r in PW, PH;
    try (unfold Js.len; Z.to_euclidean_division_equations; lia).
  unfold Js.len in *. Z.to_euclidean_division_equations. lia.
Qed.



(** ** Compass points *)

Lemma wrap360_bounds (degrees : Z) : 0 <= Dms.wrap360 degrees < 360.
Proof.
  unfold Dms.wrap360.
  destruct ((0 <=? degrees) && (degrees <? 360)) eqn:E.
  - apply andb_prop in E. destruct E as [E1 E2].
    apply Z.leb_le in E1. apply Z.ltb_lt in E2. lia.
  - Z.to_euclidean_division_equations; lia.
Qed.

Lemma wrap360_fixed (w : Z) : 0 <= w < 360 -> Dms.wrap360 w = w.
Proof.
  intros H. unfold Dms.wrap360.
  replace (0 <=? w) with true by (symmetry; apply Z.leb_le; lia).
  replace (w <? 360) with true by (symmetry; apply Z.ltb_lt; lia).
  reflexivity.
Qed.

Lemma compassPoint_wrap (bearing precision : Z) :
  Dms.compassPoint bearing precision =
  Dms.compassPoint (Dms.wrap360 bearing) precision.
Proof.
  unfold Dms.compassPoint.
  now rewrite (wrap360_fixed (Dms.wrap360 bearing) (wrap360_bounds bearing)).
Qed.

Lemma compass_ok_all (precision : Z) :
  1 <= precision <= 3 ->
  forallb (compass_ok precision) (map Z.of_nat (seq 0 360)) = true.
Proof.
  intros H.
  assert (precision = 1 \/ precision = 2 \/ precision = 3) as [-> | [-> | ->]]
    by lia; vm_compute; reflexivity.
Qed.

Lemma compass_ok_bearing (precision w : Z) :
  1 <= precision <= 3 -> 0 <= w < 360 -> compass_ok precision w = true.
Proof.
  intros Hp Hw.
  pose proof (compass_ok_all precision Hp) as A.
  rewrite forallb_forall in A. apply A.
  apply in_map_iff. exists (Z.to_nat w). split; [lia |].
  apply in_seq. lia.
Qed.

Lemma nearest_pointb_spec (n w k : Z) :
  nearest_pointb n w k = true -> nearest_point n w k.
Proof.
  unfold nearest_pointb, nearest_point. intros H.
  apply orb_prop in H. destruct H as [H | H];
    apply andb_prop in H; destruct H as [H1 H2].
  - left. apply Z.leb_le in H1. apply Z.ltb_lt in H2. lia.
  - right. apply Z.eqb_eq in H1. apply Z.leb_le in H2. lia.
Qed.

(** X22.  For a whole number of degrees and a precision of 1, 2 or 3,
    [compassPoint] returns the name of the one of the 4, 8 or 16 compass
    points that is nearest to the bearing taken modulo 360, a bearing half
    way between two points going to the clockwise one; it is never
    [undefined].  For any other precision it throws a [RangeError]. *)
Theorem compassPoint_nearest (bearing precision : Z) :
  (1 <= precision <= 3 ->
   let n := 4 * 2 ^ (precision - 1) in
   exists k s,
     0 <= k < n /\
     nth_error Dms.cardinals (Z.to_nat (k * (16 / n))) = Some s /\
     Dms.compassPoint bearing precision = Dms.returns (Some s) /\
     nearest_point n (Dms.wrap360 bearing) k) /\
  (~ 1 <= precision <= 3 ->
   Dms.compassPoint bearing precision = Dms.RangeError).
Proof.
  split.
  - intros Hp n.
    pose proof (compass_ok_bearing precision _ Hp (wrap360_bounds bearing))
      as C.
    unfold compass_ok in C. fold n in C.
    set (k := compass_sector precision (Dms.wrap360 bearing)) in C.
    rewrite <- compassPoint_wrap in C.
    apply andb_prop in C. destruct C as [C C4].
    apply andb_prop in C. destruct C as [C C3].
    apply andb_prop in C. destruct C as [C1 C2].
    apply Z.leb_le in C1. apply Z.ltb_lt in C2.
    apply nearest_pointb_spec in C3.
    destruct (Dms.compassPoint bearing precision) as [[a |] |];
      try discriminate.
    destruct (nth_error Dms.cardinals (Z.to_nat (k * (16 / n)))) as [b |]
      eqn:N; try discriminate.
    apply String.eqb_eq in C4. subst b.
    exists k, a. repeat split; try lia; try reflexivity; assumption.
  - intros Hp. unfold Dms.compassPoint.
    replace (existsb (Z.eqb precision) [1; 2; 3]) with false; [reflexivity |].
    symmetry. cbn [existsb].
    repeat (apply orb_false_intro; [apply Z.eqb_neq; lia |]). reflexivity.
Qed.

Lemma compassPoint_nearest_24 :
  1 <= 3 <= 3 /\
  exists k s,
    0 <= k < 16 /\
    nth_error Dms.cardinals (Z.to_nat (k * (16 / 16))) = Some s /\
    Dms.compassPoint 24 3 = Dms.returns (Some s) /\
    nearest_point 16 24 k.
Proof.
  split; [lia |].
  apply (proj1 (compassPoint_nearest 24 3)). lia.
Defined.
